(** * SAIREN-OS: the Volve WITS Level 0 replay server

  A shallow embedding of [scripts/volve_wits_server.py]: unit conversion,
  CSV column mapping and field extraction, the ingestion loop, the WITS
  frame encoder and the broadcast / feed loop of the TCP server.

  Conventions of the embedding.
  - Python [str] is [string]; a character is a code point below 256.
  - Python [float] is IEEE 754 binary64, carried by [spec_float] of the
    Standard Library with the operations [SFmul], [SFdiv], [SFadd] at
    precision 53 and maximal exponent 1024 (round to nearest, ties to
    even).  NaN carries no payload.
  - [csv.reader] is a library: the ingestion loop receives the rows it
    yields, each a list of field texts.
  - The asyncio tasks interleave only at [await]; the feed loop is a
    transition function from one sleep to the next, and a broadcast in
    between is given the tasks that run during its awaited drains. *)

From Stdlib Require Import ZArith String Ascii Bool Lia.
From Stdlib Require Import Floats.SpecFloat.
From Stdlib Require Import DecimalString DecimalPos DecimalN.
From stdpp Require Import base list gmap.

Local Open Scope string_scope.
Local Open Scope Z_scope.

(** ** Python text operations *)

Module PyStr.

(** [str.isspace] on code points below 256. *)
Definition is_space (c : ascii) : bool :=
  let n := N_of_ascii c in
  ((9 <=? n) && (n <=? 13) || (28 <=? n) && (n <=? 32)
   || (n =? 133) || (n =? 160))%N.

Fixpoint lstrip (s : string) : string :=
  match s with
  | String c s' => if is_space c then lstrip s' else s
  | EmptyString => EmptyString
  end.

Fixpoint rev_onto (s acc : string) : string :=
  match s with
  | String c s' => rev_onto s' (String c acc)
  | EmptyString => acc
  end.

Definition reverse (s : string) : string := rev_onto s EmptyString.

Definition rstrip (s : string) : string := reverse (lstrip (reverse s)).

(** [s.strip()] *)
Definition strip (s : string) : string := rstrip (lstrip s).

(** [str.lower] on code points below 256: the ASCII capitals and the
    Latin-1 capitals U+00C0..U+00DE except the multiplication sign. *)
Definition lower_char (c : ascii) : ascii :=
  let n := N_of_ascii c in
  if ((65 <=? n) && (n <=? 90)
      || (192 <=? n) && (n <=? 222) && negb (n =? 215))%N
  then ascii_of_N (n + 32) else c.

Fixpoint lower (s : string) : string :=
  match s with
  | String c s' => String (lower_char c) (lower s')
  | EmptyString => EmptyString
  end.

(** [s.startswith(p)] *)
Definition startswith (s p : string) : bool := String.prefix p s.

(** [sep.join(lines)] *)
Fixpoint join (sep : string) (lines : list string) : string :=
  match lines with
  | [] => EmptyString
  | [l] => l
  | l :: rest => l ++ sep ++ join sep rest
  end.

(** [s.encode("ascii")]: fails on a code point above 127. *)
Fixpoint encode_ascii (s : string) : option (list Byte.byte) :=
  match s with
  | EmptyString => Some []
  | String c s' =>
      if (N_of_ascii c <? 128)%N
      then option_map (cons (byte_of_ascii c)) (encode_ascii s')
      else None
  end.

End PyStr.

(** ** Python floats: binary64 *)

Module PyFloat.

Definition float := spec_float.

Definition prec : Z := 53.
Definition emax : Z := 1024.

Definition mul : float -> float -> float := SFmul prec emax.
Definition div : float -> float -> float := SFdiv prec emax.
Definition add : float -> float -> float := SFadd prec emax.
Definition abs : float -> float := SFabs.
(** [x == y], [x < y], [x != y] *)
Definition eqb : float -> float -> bool := SFeqb.
Definition ltb : float -> float -> bool := SFltb.
Definition neqb (x y : float) : bool := negb (eqb x y).

Definition zero : float := S754_zero false.

(** Truth value of a float in a condition: false exactly for zero. *)
Definition truthy (x : float) : bool := neqb x zero.

Definition is_nan (x : float) : bool :=
  match x with S754_nan => true | _ => false end.

Definition is_finite (x : float) : bool :=
  match x with S754_zero _ | S754_finite _ _ _ => true | _ => false end.

(** *** [float(s)]: text to binary64

    Grammar of the Python documentation:
    [[sign] (floatnumber | "inf" | "infinity" | "nan")] between optional
    white space, the words in any letter case, with
    [digitpart ::= digit (["_"] digit)*],
    [number ::= [digitpart] "." digitpart | digitpart ["."]] and
    [exponent ::= ("e" | "E") [sign] digitpart].  The decimal value is
    rounded once, to nearest with ties to even.  [None] is [ValueError]. *)

Definition digit_val (c : ascii) : option Z :=
  let n := N_of_ascii c in
  if ((48 <=? n) && (n <=? 57))%N then Some (Z.of_N n - 48) else None.

(** After a first digit: [(["_"] digit)*], the digits accumulated in
    reverse; returns the digits and the unread rest. *)
Fixpoint digit_tail (s : string) (acc : list Z) : list Z * string :=
  match s with
  | String c s' =>
      match digit_val c with
      | Some d => digit_tail s' (d :: acc)
      | None =>
          if Ascii.eqb c "_" then
            match s' with
            | String c2 s'' =>
                match digit_val c2 with
                | Some d => digit_tail s'' (d :: acc)
                | None => (acc, s)
                end
            | EmptyString => (acc, s)
            end
          else (acc, s)
      end
  | EmptyString => (acc, s)
  end.

Definition digitpart (s : string) : option (list Z * string) :=
  match s with
  | String c s' =>
      match digit_val c with
      | Some d => let '(ds, r) := digit_tail s' [d] in Some (rev ds, r)
      | None => None
      end
  | EmptyString => None
  end.

Definition int_of_digits (ds : list Z) : Z :=
  fold_left (fun acc d => 10 * acc + d) ds 0.

(** [number]: integer digits, fraction digits, unread rest. *)
Definition number (s : string) : option (list Z * list Z * string) :=
  match digitpart s with
  | Some (ds, String "." r) =>
      match digitpart r with
      | Some (fs, r') => Some (ds, fs, r')
      | None => Some (ds, [], r)
      end
  | Some (ds, r) => Some (ds, [], r)
  | None =>
      match s with
      | String "." r =>
          match digitpart r with
          | Some (fs, r') => Some ([], fs, r')
          | None => None
          end
      | _ => None
      end
  end.

Definition take_sign (s : string) : bool * string :=
  match s with
  | String "+" r => (false, r)
  | String "-" r => (true, r)
  | _ => (false, s)
  end.

(** [exponent] up to the end of the text; absent means 0. *)
Definition exponent (s : string) : option Z :=
  match s with
  | EmptyString => Some 0
  | String c r =>
      if Ascii.eqb c "e" || Ascii.eqb c "E" then
        let '(neg, r') := take_sign r in
        match digitpart r' with
        | Some (ds, EmptyString) =>
            Some (if neg then - int_of_digits ds else int_of_digits ds)
        | _ => None
        end
      else None
  end.

(** The binary64 nearest to [(-1)^s * m * 10^e], [m > 0]. *)
Definition of_decimal (s : bool) (m : positive) (e : Z) : float :=
  match e with
  | Zneg p =>
      let '(q, e', l) :=
        SFdiv_core_binary prec emax (Zpos m) 0 (Zpos (10 ^ p)) 0 in
      binary_round_aux prec emax s q e' l
  | _ => binary_round prec emax s (m * Z.to_pos (10 ^ e))%positive 0
  end.

Definition of_string (text : string) : option float :=
  let '(neg, body) := take_sign (PyStr.strip text) in
  let word := PyStr.lower body in
  if String.eqb word "inf" || String.eqb word "infinity"
  then Some (S754_infinity neg)
  else if String.eqb word "nan" then Some S754_nan
  else
    match number body with
    | Some (ds, fs, r) =>
        match exponent r with
        | Some ex =>
            match int_of_digits (ds ++ fs) with
            | Zpos m => Some (of_decimal neg m (ex - Z.of_nat (length fs)))
            | _ => Some (S754_zero neg)
            end
        | None => None
        end
    | None => None
    end.

(** A float literal of the program text. *)
Definition lit (text : string) : float :=
  match of_string text with Some x => x | None => S754_nan end.

(** *** [f"{x:.2f}"]: binary64 to text with two decimals

    The exact binary value is rounded once to a multiple of 0.01, ties
    to even; the sign bit prints also when the rounded value is zero. *)

Definition round_half_even_div (n d : Z) : Z :=
  let '(q, r) := Z.div_eucl n d in
  match 2 * r ?= d with
  | Lt => q
  | Gt => q + 1
  | Eq => if Z.even q then q else q + 1
  end.

(** [m * 2^e] in hundredths, rounded. *)
Definition hundredths (m : positive) (e : Z) : Z :=
  match e with
  | Zneg p => round_half_even_div (Zpos m * 100) (2 ^ Zpos p)
  | _ => Zpos m * 100 * 2 ^ e
  end.

Definition digits_of (n : Z) : string :=
  NilEmpty.string_of_uint (N.to_uint (Z.to_N n)).

Definition digit_char (d : Z) : ascii := ascii_of_N (Z.to_N (48 + d)).

Definition two_digits (n : Z) : string :=
  String (digit_char (n / 10)) (String (digit_char (n mod 10)) EmptyString).

Definition sign_text (s : bool) : string := if s then "-" else EmptyString.

Definition format_2f (x : float) : string :=
  match x with
  | S754_nan => "nan"
  | S754_infinity s => sign_text s ++ "inf"
  | S754_zero s => sign_text s ++ "0.00"
  | S754_finite s m e =>
      let c := hundredths m e in
      sign_text s ++ digits_of (c / 100) ++ "." ++ two_digits (c mod 100)
  end.

End PyFloat.

Import PyFloat.

(** ** Unit conversions (metric to oilfield) *)

Definition M_TO_FT : float := Eval vm_compute in lit "3.28084".
Definition KKGF_TO_KLBF : float := Eval vm_compute in lit "2.20462".
Definition KNM_TO_KFTLB : float := Eval vm_compute in lit "0.737562".
Definition MH_TO_FTHR : float := Eval vm_compute in lit "3.28084".
Definition KPA_TO_PSI : float := Eval vm_compute in lit "0.145038".
Definition LMIN_TO_GPM : float := Eval vm_compute in lit "0.264172".
Definition GCM3_TO_PPG : float := Eval vm_compute in lit "8.34540".
Definition M3_TO_BBL : float := Eval vm_compute in lit "6.28981".

Definition f_0_0 : float := Eval vm_compute in lit "0.0".
Definition f_9_0 : float := Eval vm_compute in lit "9.0".
Definition f_5_0 : float := Eval vm_compute in lit "5.0".
Definition f_32_0 : float := Eval vm_compute in lit "32.0".
Definition f_1e_10 : float := Eval vm_compute in lit "1e-10".
Definition f_1_0 : float := Eval vm_compute in lit "1.0".

Definition celsius_to_fahrenheit (c : float) : float :=
  if eqb c f_0_0 then f_0_0
  else add (div (mul c f_9_0) f_5_0) f_32_0.

(** ** WITS Level 0 channel codes (record 01) *)

Definition WITS_BLOCK_POS : string := "0105".
Definition WITS_BIT_DEPTH : string := "0108".
Definition WITS_HOLE_DEPTH : string := "0110".
Definition WITS_ROP : string := "0113".
Definition WITS_HOOK_LOAD : string := "0114".
Definition WITS_WOB : string := "0116".
Definition WITS_RPM : string := "0117".
Definition WITS_TORQUE : string := "0118".
Definition WITS_SPP : string := "0119".
Definition WITS_PUMP_SPM : string := "0120".
Definition WITS_FLOW_IN : string := "0121".
Definition WITS_FLOW_OUT : string := "0122".
Definition WITS_PIT_VOL : string := "0123".
Definition WITS_MW_IN : string := "0124".
Definition WITS_MW_OUT : string := "0125".
Definition WITS_TEMP_IN : string := "0126".
Definition WITS_TEMP_OUT : string := "0127".
Definition WITS_GAS : string := "0140".
Definition WITS_ECD : string := "0150".

(** ** CSV column mapping *)

Module ColumnMap.

(** The dataclass: one column index per attribute, -1 when unmapped. *)
Record t : Type := mk {
  time : Z; bit_depth : Z; hole_depth : Z; wob : Z; torque : Z; rpm : Z;
  rop : Z; spp : Z; hook_load : Z; flow_in : Z; mw_in : Z; mw_out : Z;
  ecd : Z; temp_in : Z; temp_out : Z; gas : Z; pump_spm : Z;
  pit_volume : Z; block_pos : Z }.

Definition default : t :=
  mk (-1) (-1) (-1) (-1) (-1) (-1) (-1) (-1) (-1) (-1)
     (-1) (-1) (-1) (-1) (-1) (-1) (-1) (-1) (-1).

(** The attribute names, to speak of [m.<attr> = i] uniformly. *)
Inductive field : Type :=
  | F_time | F_bit_depth | F_hole_depth | F_wob | F_torque | F_rpm
  | F_rop | F_spp | F_hook_load | F_flow_in | F_mw_in | F_mw_out
  | F_ecd | F_temp_in | F_temp_out | F_gas | F_pump_spm
  | F_pit_volume | F_block_pos.

Definition set (f : field) (i : Z) (m : t) : t :=
  let '(mk c0 c1 c2 c3 c4 c5 c6 c7 c8 c9 c10 c11 c12 c13 c14 c15 c16 c17 c18) := m in
  match f with
  | F_time => mk i  c1 c2 c3 c4 c5 c6 c7 c8 c9 c10 c11 c12 c13 c14 c15 c16 c17 c18
  | F_bit_depth => mk c0 i  c2 c3 c4 c5 c6 c7 c8 c9 c10 c11 c12 c13 c14 c15 c16 c17 c18
  | F_hole_depth => mk c0 c1 i  c3 c4 c5 c6 c7 c8 c9 c10 c11 c12 c13 c14 c15 c16 c17 c18
  | F_wob => mk c0 c1 c2 i  c4 c5 c6 c7 c8 c9 c10 c11 c12 c13 c14 c15 c16 c17 c18
  | F_torque => mk c0 c1 c2 c3 i  c5 c6 c7 c8 c9 c10 c11 c12 c13 c14 c15 c16 c17 c18
  | F_rpm => mk c0 c1 c2 c3 c4 i  c6 c7 c8 c9 c10 c11 c12 c13 c14 c15 c16 c17 c18
  | F_rop => mk c0 c1 c2 c3 c4 c5 i  c7 c8 c9 c10 c11 c12 c13 c14 c15 c16 c17 c18
  | F_spp => mk c0 c1 c2 c3 c4 c5 c6 i  c8 c9 c10 c11 c12 c13 c14 c15 c16 c17 c18
  | F_hook_load => mk c0 c1 c2 c3 c4 c5 c6 c7 i  c9 c10 c11 c12 c13 c14 c15 c16 c17 c18
  | F_flow_in => mk c0 c1 c2 c3 c4 c5 c6 c7 c8 i  c10 c11 c12 c13 c14 c15 c16 c17 c18
  | F_mw_in => mk c0 c1 c2 c3 c4 c5 c6 c7 c8 c9 i  c11 c12 c13 c14 c15 c16 c17 c18
  | F_mw_out => mk c0 c1 c2 c3 c4 c5 c6 c7 c8 c9 c10 i  c12 c13 c14 c15 c16 c17 c18
  | F_ecd => mk c0 c1 c2 c3 c4 c5 c6 c7 c8 c9 c10 c11 i  c13 c14 c15 c16 c17 c18
  | F_temp_in => mk c0 c1 c2 c3 c4 c5 c6 c7 c8 c9 c10 c11 c12 i  c14 c15 c16 c17 c18
  | F_temp_out => mk c0 c1 c2 c3 c4 c5 c6 c7 c8 c9 c10 c11 c12 c13 i  c15 c16 c17 c18
  | F_gas => mk c0 c1 c2 c3 c4 c5 c6 c7 c8 c9 c10 c11 c12 c13 c14 i  c16 c17 c18
  | F_pump_spm => mk c0 c1 c2 c3 c4 c5 c6 c7 c8 c9 c10 c11 c12 c13 c14 c15 i  c17 c18
  | F_pit_volume => mk c0 c1 c2 c3 c4 c5 c6 c7 c8 c9 c10 c11 c12 c13 c14 c15 c16 i  c18
  | F_block_pos => mk c0 c1 c2 c3 c4 c5 c6 c7 c8 c9 c10 c11 c12 c13 c14 c15 c16 c17 i 
  end.

Definition get (f : field) (m : t) : Z :=
  match f with
  | F_time => time m
  | F_bit_depth => bit_depth m
  | F_hole_depth => hole_depth m
  | F_wob => wob m
  | F_torque => torque m
  | F_rpm => rpm m
  | F_rop => rop m
  | F_spp => spp m
  | F_hook_load => hook_load m
  | F_flow_in => flow_in m
  | F_mw_in => mw_in m
  | F_mw_out => mw_out m
  | F_ecd => ecd m
  | F_temp_in => temp_in m
  | F_temp_out => temp_out m
  | F_gas => gas m
  | F_pump_spm => pump_spm m
  | F_pit_volume => pit_volume m
  | F_block_pos => block_pos m
  end.

End ColumnMap.

Import PyStr.

(** One iteration of the [for i, col in enumerate(header)] loop. *)
Definition map_column (m : ColumnMap.t) (i : Z) (col : string)
  : ColumnMap.t :=
  let cl := lower (strip col) in
  if String.eqb cl "time time" || String.eqb cl "datetime parsed"
  then ColumnMap.set ColumnMap.F_time i m
  else if startswith cl "bit depth"
  then ColumnMap.set ColumnMap.F_bit_depth i m
  else if startswith cl "total depth" || startswith cl "hole depth"
  then ColumnMap.set ColumnMap.F_hole_depth i m
  else if startswith cl "weight on bit"
  then ColumnMap.set ColumnMap.F_wob i m
  else if startswith cl "average surface torque"
  then ColumnMap.set ColumnMap.F_torque i m
  else if startswith cl "average rotary speed"
  then ColumnMap.set ColumnMap.F_rpm i m
  else if startswith cl "rate of penetration"
  then ColumnMap.set ColumnMap.F_rop i m
  else if startswith cl "stand pipe pressure"
  then ColumnMap.set ColumnMap.F_spp i m
  else if startswith cl "total hookload"
  then ColumnMap.set ColumnMap.F_hook_load i m
  else if startswith cl "mud flow in"
  then ColumnMap.set ColumnMap.F_flow_in i m
  else if startswith cl "mud density in"
  then ColumnMap.set ColumnMap.F_mw_in i m
  else if startswith cl "mud density out"
  then ColumnMap.set ColumnMap.F_mw_out i m
  else if startswith cl "equivalent circulating"
  then ColumnMap.set ColumnMap.F_ecd i m
  else if startswith cl "tmp in"
  then ColumnMap.set ColumnMap.F_temp_in i m
  else if startswith cl "temperature out"
  then ColumnMap.set ColumnMap.F_temp_out i m
  else if startswith cl "gas (avg)"
  then ColumnMap.set ColumnMap.F_gas i m
  else if startswith cl "total spm"
  then ColumnMap.set ColumnMap.F_pump_spm i m
  else if startswith cl "tank volume"
  then ColumnMap.set ColumnMap.F_pit_volume i m
  else if startswith cl "block position"
  then ColumnMap.set ColumnMap.F_block_pos i m
  else m.

(** The loop from column [i] on, [m] being the map built so far. *)
Fixpoint map_columns_from (i : Z) (header : list string) (m : ColumnMap.t)
  : ColumnMap.t :=
  match header with
  | [] => m
  | col :: rest => map_columns_from (i + 1) rest (map_column m i col)
  end.

Definition map_columns (header : list string) : ColumnMap.t :=
  map_columns_from 0 header ColumnMap.default.

(** ** Field extraction *)

Definition safe_float (fields : list string) (idx : Z) : float :=
  if (idx <? 0) || (idx >=? Z.of_nat (length fields)) then f_0_0
  else
    match fields !! Z.to_nat idx with
    | None => f_0_0
    | Some field =>
        let s := strip field in
        if String.eqb s EmptyString
           || bool_decide (lower s ∈ ["nan"; "null"; "-"; EmptyString])
        then f_0_0
        else
          match of_string s with
          | Some v => if neqb v v then f_0_0 else v
          | None => f_0_0
          end
    end.

(** ** Records and the frame encoder *)

Module WitsRecord.

(** One drilling sample in oilfield units. *)
Record t : Type := mk {
  bit_depth : float; hole_depth : float; wob : float; torque : float;
  rpm : float; rop : float; hook_load : float; spp : float;
  flow_in : float; mw_in : float; mw_out : float; ecd : float;
  temp_in : float; temp_out : float; gas : float; pump_spm : float;
  pit_volume : float; block_pos : float }.

(** The list [items] of [to_wits_frame]. *)
Definition items (self : t) : list (string * float) :=
  [ (WITS_BIT_DEPTH, bit_depth self);
    (WITS_HOLE_DEPTH, hole_depth self);
    (WITS_ROP, rop self);
    (WITS_HOOK_LOAD, hook_load self);
    (WITS_WOB, wob self);
    (WITS_RPM, rpm self);
    (WITS_TORQUE, torque self);
    (WITS_SPP, spp self);
    (WITS_PUMP_SPM, pump_spm self);
    (WITS_FLOW_IN, flow_in self);
    (WITS_MW_IN, mw_in self);
    (WITS_MW_OUT, mw_out self);
    (WITS_ECD, ecd self);
    (WITS_TEMP_IN, temp_in self);
    (WITS_TEMP_OUT, temp_out self);
    (WITS_GAS, gas self);
    (WITS_PIT_VOL, pit_volume self);
    (WITS_BLOCK_POS, block_pos self) ].

End WitsRecord.

Definition CRLF : string := String "013" (String "010" EmptyString).

(** [lines] as [to_wits_frame] builds it: "&&", one line per item, "!!". *)
Definition frame_lines (self : WitsRecord.t) : list string :=
  (["&&"]
   ++ map (fun '(code, value) => (code ++ format_2f value)%string)
          (WitsRecord.items self)
   ++ ["!!"])%list.

(** [None] would be the [UnicodeEncodeError] of [encode]. *)
Definition to_wits_frame (self : WitsRecord.t) : option (list Byte.byte) :=
  encode_ascii (join CRLF (frame_lines self) ++ CRLF).

(** ** Data loading *)

(** [not fields or all(f.strip() == '' for f in fields)] *)
Definition blank_row (fields : list string) : bool :=
  bool_decide (fields = [])
  || forallb (fun f => String.eqb (strip f) EmptyString) fields.

(** [abs(x) < 1e-10] *)
Definition near_zero (x : float) : bool := ltb (abs x) f_1e_10.

(** The condition of the all-zero (sensor gap) test. *)
Definition gap_row (col : ColumnMap.t) (fields : list string) : bool :=
  near_zero (safe_float fields (ColumnMap.wob col))
  && near_zero (safe_float fields (ColumnMap.rpm col))
  && near_zero (safe_float fields (ColumnMap.rop col))
  && near_zero (safe_float fields (ColumnMap.spp col))
  && near_zero (safe_float fields (ColumnMap.bit_depth col)).

(** The record built from a row that passed both tests. *)
Definition convert_row (col : ColumnMap.t) (fields : list string)
  : WitsRecord.t :=
  let raw_depth := safe_float fields (ColumnMap.bit_depth col) in
  let raw_hole := safe_float fields (ColumnMap.hole_depth col) in
  let raw_wob := safe_float fields (ColumnMap.wob col) in
  let raw_torque := safe_float fields (ColumnMap.torque col) in
  let raw_rpm := safe_float fields (ColumnMap.rpm col) in
  let raw_rop := safe_float fields (ColumnMap.rop col) in
  let raw_hookload := safe_float fields (ColumnMap.hook_load col) in
  let raw_spp := safe_float fields (ColumnMap.spp col) in
  let raw_flow_in := safe_float fields (ColumnMap.flow_in col) in
  let raw_mw_in := safe_float fields (ColumnMap.mw_in col) in
  let raw_mw_out := safe_float fields (ColumnMap.mw_out col) in
  let raw_ecd := safe_float fields (ColumnMap.ecd col) in
  let raw_temp_in := safe_float fields (ColumnMap.temp_in col) in
  let raw_temp_out := safe_float fields (ColumnMap.temp_out col) in
  let raw_gas := safe_float fields (ColumnMap.gas col) in
  let raw_pump_spm := safe_float fields (ColumnMap.pump_spm col) in
  let raw_pit_vol := safe_float fields (ColumnMap.pit_volume col) in
  let raw_block_pos := safe_float fields (ColumnMap.block_pos col) in
  {| WitsRecord.bit_depth := mul raw_depth M_TO_FT;
     WitsRecord.hole_depth :=
       mul (if truthy raw_hole then raw_hole else raw_depth) M_TO_FT;
     WitsRecord.wob := mul raw_wob KKGF_TO_KLBF;
     WitsRecord.torque := mul raw_torque KNM_TO_KFTLB;
     WitsRecord.rpm := raw_rpm;
     WitsRecord.rop := mul raw_rop MH_TO_FTHR;
     WitsRecord.hook_load := mul raw_hookload KKGF_TO_KLBF;
     WitsRecord.spp := mul raw_spp KPA_TO_PSI;
     WitsRecord.flow_in := mul raw_flow_in LMIN_TO_GPM;
     WitsRecord.mw_in := mul raw_mw_in GCM3_TO_PPG;
     WitsRecord.mw_out := mul raw_mw_out GCM3_TO_PPG;
     WitsRecord.ecd := mul raw_ecd GCM3_TO_PPG;
     WitsRecord.temp_in := celsius_to_fahrenheit raw_temp_in;
     WitsRecord.temp_out := celsius_to_fahrenheit raw_temp_out;
     WitsRecord.gas := raw_gas;
     WitsRecord.pump_spm := raw_pump_spm;
     WitsRecord.pit_volume := mul raw_pit_vol M3_TO_BBL;
     WitsRecord.block_pos := mul raw_block_pos M_TO_FT |}.

(** The local state of [load_csv]: the list [records] and the counter
    [skipped]. *)
Record load_state : Type := LoadState {
  records : list WitsRecord.t;
  skipped : nat }.

(** The body of the loop over the data rows, with its two [continue]s. *)
Definition load_row (col : ColumnMap.t) (st : load_state)
  (fields : list string) : load_state :=
  if blank_row fields then st
  else if gap_row col fields
  then {| records := records st; skipped := S (skipped st) |}
  else {| records := (records st ++ [convert_row col fields])%list;
          skipped := skipped st |}.

(** The state when the loop over the rows ends. *)
Definition load_rows (col : ColumnMap.t) (rows : list (list string))
  : load_state :=
  fold_left (load_row col) rows {| records := []; skipped := 0 |}.

(** [load_csv] on the rows read from the file, the header first.  [None]
    is the [StopIteration] of [next(reader)] on a file without rows.  The
    function returns [records]; [skipped] is local and dropped. *)
Definition load_csv (file_rows : list (list string))
  : option (list WitsRecord.t) :=
  match file_rows with
  | [] => None
  | header :: rows => Some (records (load_rows (map_columns header) rows))
  end.

(** ** The TCP server *)

Module WitsServer.

(** A connected [StreamWriter], by identity. *)
Definition writer : Type := nat.

Definition bytes : Type := list Byte.byte.

Record t : Type := mk {
  records : list WitsRecord.t;
  interval : float;
  port : Z;
  loop_replay : bool;
  clients : gset writer;
  running : bool;
  total_sent : nat }.

(** [__init__]; [None] is the [ZeroDivisionError] of [1.0 / speed]. *)
Definition init (records : list WitsRecord.t) (speed : float) (port : Z)
  (loop_replay : bool) : option t :=
  if eqb speed f_0_0 then None
  else Some {| records := records;
               interval := div f_1_0 speed;
               port := port;
               loop_replay := loop_replay;
               clients := ∅;
               running := true;
               total_sent := 0 |}.

Definition set_clients (self : t) (c : gset writer) : t :=
  mk (records self) (interval self) (port self) (loop_replay self)
     c (running self) (total_sent self).

Definition set_running (self : t) (b : bool) : t :=
  mk (records self) (interval self) (port self) (loop_replay self)
     (clients self) b (total_sent self).

Definition set_total_sent (self : t) (n : nat) : t :=
  mk (records self) (interval self) (port self) (loop_replay self)
     (clients self) (running self) n.

(** *** The other tasks

    What may run while the feed loop is suspended: [handle_client]
    registers a new connection or discards a closed one, and the signal
    handler clears [running]. *)

Inductive event : Type :=
  | Connect (w : writer)
  | Disconnect (w : writer)
  | Shutdown.

Definition handle (e : event) (self : t) : t :=
  match e with
  | Connect w => set_clients self (clients self ∪ {[w]})
  | Disconnect w => set_clients self (clients self ∖ {[w]})
  | Shutdown => set_running self false
  end.

(** Whether handling [e] changes the registry: [add] of a writer that is
    not in it, [discard] of one that is. *)
Definition touches (e : event) (self : t) : bool :=
  match e with
  | Connect w => bool_decide (w ∉ clients self)
  | Disconnect w => bool_decide (w ∈ clients self)
  | Shutdown => false
  end.

(** One suspension of the feed loop: the other tasks handle [es] in
    order.  The flag tells whether one of them changed the registry. *)
Fixpoint suspend (es : list event) (self : t) : t * bool :=
  match es with
  | [] => (self, false)
  | e :: es' =>
      let '(self', changed) := suspend es' (handle e self) in
      (self', touches e self || changed)
  end.

(** *** [broadcast]

    The first loop iterates over the registry itself and awaits
    [writer.drain()] in its body, so other tasks may run in the middle of
    a broadcast.  What the broadcast meets is given from outside:
    - [fails w]: whether [w.write(data); await w.drain()] raises one of
      the caught errors (connection reset, broken pipe, [OSError]);
    - [turns]: the events the other tasks handle during the first, the
      second, ... awaited drain (none where the list ends or the drain
      does not suspend);
    - [walk]: the writers the set iterator comes to after the registry
      was changed under it and has its former size again.  Which those
      are depends on the hash table of the set and is left open; the
      iterator yields those of them that are registered when it comes to
      them.

    The set iterator remembers the size of the set at its creation; each
    time it is asked for the next writer, also the last time, it raises
    [RuntimeError] ("Set changed size during iteration") when the size
    differs.  That error is not among the caught ones. *)

Record env : Type := Env {
  fails : writer -> bool;
  turns : list (list event);
  walk : list writer }.

Record broadcast_trace : Type := BroadcastTrace {
  written : list (writer * bytes);   (* the write attempts, in order *)
  closed : list writer }.            (* the [w.close()] calls, in order *)

Inductive broadcast_result : Type :=
  | Completed (self' : t) (tr : broadcast_trace)   (* [broadcast] returned *)
  | SetChanged (self' : t) (tr : broadcast_trace). (* [RuntimeError] *)

(** The check of the set iterator. *)
Definition same_size (self : t) (used : nat) : bool :=
  Nat.eqb (size (clients self)) used.

(** The second loop: [self.clients.discard(w)] for each dead writer. *)
Definition discard_all (dead : list writer) (cl : gset writer)
  : gset writer :=
  fold_left (fun s w => s ∖ {[w]}) dead cl.

(** The first loop is over; the second loop runs without suspending. *)
Definition finish (self : t) (dead : list writer)
  (log : list (writer * bytes)) : broadcast_result :=
  Completed (set_clients self (discard_all dead (clients self)))
            {| written := log; closed := dead |}.

(** The first loop once the registry was changed during a drain: the
    iterator goes through [walk] as long as the size is the one it
    remembers, and yields the writers that are registered. *)
Fixpoint visit_changed (fails : writer -> bool) (data : bytes) (used : nat)
  (walk : list writer) (turns : list (list event)) (self : t)
  (dead : list writer) (log : list (writer * bytes)) : broadcast_result :=
  if negb (same_size self used)
  then SetChanged self {| written := log; closed := [] |}
  else
    match walk with
    | [] => finish self dead log
    | w :: walk' =>
        if bool_decide (w ∈ clients self)
        then
          let '(self', _) := suspend (hd [] turns) self in
          visit_changed fails data used walk' (tl turns) self'
            (if fails w then dead ++ [w] else dead)%list
            (log ++ [(w, data)])%list
        else visit_changed fails data used walk' turns self dead log
    end.

(** The first loop over a registry nobody has changed so far: the
    iterator yields the writers of [order], the registry in the order of
    its table. *)
Fixpoint visit (fails : writer -> bool) (data : bytes) (used : nat)
  (order : list writer) (turns : list (list event)) (walk : list writer)
  (self : t) (dead : list writer) (log : list (writer * bytes))
  : broadcast_result :=
  if negb (same_size self used)
  then SetChanged self {| written := log; closed := [] |}
  else
    match order with
    | [] => finish self dead log
    | w :: order' =>
        let '(self', changed) := suspend (hd [] turns) self in
        let dead' := (if fails w then dead ++ [w] else dead)%list in
        let log' := (log ++ [(w, data)])%list in
        if changed
        then visit_changed fails data used walk (tl turns) self' dead' log'
        else visit fails data used order' (tl turns) walk self' dead' log'
    end.

Definition broadcast (e : env) (self : t) (data : bytes)
  : broadcast_result :=
  visit (fails e) data (size (clients self)) (elements (clients self))
        (turns e) (walk e) self [] [].

(** *** [_feed_loop]

    Where the coroutine sleeps, with its local variables [pass_num], [i]
    and [rec].  The suspensions inside [broadcast] are those of [env]. *)

Inductive point : Type :=
  | Created                              (* scheduled, not yet started *)
  | InitialPoll                          (* first [sleep(0.1)] loop *)
  | ReconnectPoll (pass_num i : nat) (rec : WitsRecord.t)
                                         (* [sleep(0.1)] inside the pass *)
  | Pacing (pass_num i : nat)            (* [sleep(interval)] after record i *)
  | FinalIdle                            (* [sleep(1.0)] after the replay *)
  | Returned                             (* the coroutine returned *)
  | Raised                               (* the coroutine raised *)
  | Spinning.                            (* loops without ever suspending *)

(** What one resumption broadcast, if anything. *)
Record sent : Type := Sent {
  sent_index : nat;
  sent_record : WitsRecord.t;
  sent_trace : broadcast_trace }.

Definition outcome : Type := t * point * option sent.

Definition no_clients (self : t) : bool := bool_decide (clients self = ∅).

(** [while self.running: await asyncio.sleep(1.0)] then [return]. *)
Definition final_idle (self : t) : outcome :=
  if running self then (self, FinalIdle, None) else (self, Returned, None).

(** Encode, broadcast, count, then sleep for the pacing interval.  An
    error out of the encoder or out of [broadcast] ends the coroutine
    before the counter is touched. *)
Definition send (e : env) (self : t) (pass_num i : nat)
  (rec : WitsRecord.t) : outcome :=
  match to_wits_frame rec with
  | None => (self, Raised, None)
  | Some frame =>
      match broadcast e self frame with
      | Completed self1 tr =>
          (set_total_sent self1 (total_sent self1 + 1)%nat,
           Pacing pass_num i,
           Some {| sent_index := i; sent_record := rec; sent_trace := tr |})
      | SetChanged self1 tr =>
          (self1, Raised,
           Some {| sent_index := i; sent_record := rec; sent_trace := tr |})
      end
  end.

(** [while not self.clients and self.running: await asyncio.sleep(0.1)]
    inside the pass, and what follows it. *)
Definition reconnect_wait (e : env) (self : t)
  (pass_num i : nat) (rec : WitsRecord.t) : outcome :=
  if no_clients self && running self
  then (self, ReconnectPoll pass_num i rec, None)
  else send e self pass_num i rec.

(** The body of [for i, rec in enumerate(self.records)]. *)
Definition iteration (e : env) (self : t)
  (pass_num i : nat) (rec : WitsRecord.t) : outcome :=
  if negb (running self) then (self, Returned, None)
  else if no_clients self then reconnect_wait e self pass_num i rec
  else send e self pass_num i rec.

(** The head of [while self.running], [pass_num] passes being done. *)
Definition next_pass (e : env) (self : t) (pass_num : nat)
  : outcome :=
  if negb (running self) then (self, Returned, None)
  else
    match records self with
    | rec :: _ => iteration e self (pass_num + 1) 0 rec
    | [] =>
        if negb (loop_replay self) then final_idle self
        else (self, Spinning, None)
    end.

(** The [for] loop asks for item [i]. *)
Definition for_next (e : env) (self : t) (pass_num i : nat)
  : outcome :=
  match records self !! i with
  | Some rec => iteration e self pass_num i rec
  | None =>
      if negb (loop_replay self) then final_idle self
      else next_pass e self pass_num
  end.

(** The coroutine runs from one sleep to the next. *)
Definition resume (e : env) (self : t) (at_ : point)
  : outcome :=
  match at_ with
  | Created | InitialPoll =>
      if no_clients self && running self then (self, InitialPoll, None)
      else next_pass e self 0
  | ReconnectPoll pass_num i rec => reconnect_wait e self pass_num i rec
  | Pacing pass_num i => for_next e self pass_num (i + 1)
  | FinalIdle => final_idle self
  | Returned => (self, Returned, None)
  | Raised => (self, Raised, None)
  | Spinning => (self, Spinning, None)
  end.

(** The record the loop will broadcast next, by its index. *)
Definition pending (self : t) (at_ : point) : option nat :=
  match at_ with
  | Created | InitialPoll =>
      match records self with [] => None | _ => Some 0%nat end
  | ReconnectPoll _ i _ => Some i
  | Pacing _ i =>
      match records self !! (i + 1)%nat with
      | Some _ => Some (i + 1)%nat
      | None =>
          if loop_replay self
          then match records self with [] => None | _ => Some 0%nat end
          else None
      end
  | _ => None
  end.

(** The server and its feed loop.  Another task runs while the feed loop
    sleeps ([step_event]; not when it spins) or while a broadcast is
    suspended in a drain (the turns of the [env] of [step_feed]). *)
Definition config : Type := t * point.

Inductive step : config -> config -> Prop :=
  | step_event ev self at_ :
      at_ <> Spinning ->
      step (self, at_) (handle ev self, at_)
  | step_feed e self at_ self' at_' out :
      resume e self at_ = (self', at_', out) ->
      step (self, at_) (self', at_').

Definition reachable (start : t) (c : config) : Prop :=
  rtc step (start, Created) c.

End WitsServer.

(** ** Vocabulary of the properties *)

(** *** Column mapping as an ordered rule list

    The same patterns as the [if]/[elif] chain of [map_columns], written
    as (predicate, attribute) rules tried top to bottom. *)

Module Rules.
Import ColumnMap.

Definition rules : list ((string -> bool) * field) :=
  [ (fun cl => String.eqb cl "time time"
               || String.eqb cl "datetime parsed", F_time);
    (fun cl => startswith cl "bit depth", F_bit_depth);
    (fun cl => startswith cl "total depth"
               || startswith cl "hole depth", F_hole_depth);
    (fun cl => startswith cl "weight on bit", F_wob);
    (fun cl => startswith cl "average surface torque", F_torque);
    (fun cl => startswith cl "average rotary speed", F_rpm);
    (fun cl => startswith cl "rate of penetration", F_rop);
    (fun cl => startswith cl "stand pipe pressure", F_spp);
    (fun cl => startswith cl "total hookload", F_hook_load);
    (fun cl => startswith cl "mud flow in", F_flow_in);
    (fun cl => startswith cl "mud density in", F_mw_in);
    (fun cl => startswith cl "mud density out", F_mw_out);
    (fun cl => startswith cl "equivalent circulating", F_ecd);
    (fun cl => startswith cl "tmp in", F_temp_in);
    (fun cl => startswith cl "temperature out", F_temp_out);
    (fun cl => startswith cl "gas (avg)", F_gas);
    (fun cl => startswith cl "total spm", F_pump_spm);
    (fun cl => startswith cl "tank volume", F_pit_volume);
    (fun cl => startswith cl "block position", F_block_pos) ].

(** The attribute of the first rule whose pattern matches. *)
Fixpoint first_match (rs : list ((string -> bool) * field)) (cl : string)
  : option field :=
  match rs with
  | [] => None
  | (p, f) :: rest => if p cl then Some f else first_match rest cl
  end.

(** The attribute a header column stands for, if any. *)
Definition column_field (col : string) : option field :=
  first_match rules (lower (strip col)).

#[global] Instance field_eq_dec : EqDecision field.
Proof. solve_decision. Defined.

(** Index of the last column of [header] standing for [f], the first
    column of [header] having index [i]. *)
Fixpoint last_column_from (i : Z) (f : field) (header : list string)
  : option Z :=
  match header with
  | [] => None
  | col :: rest =>
      match last_column_from (i + 1) f rest with
      | Some j => Some j
      | None => if decide (column_field col = Some f) then Some i else None
      end
  end.

Definition last_column (f : field) (header : list string) : option Z :=
  last_column_from 0 f header.

End Rules.

(** *** Shape of a frame *)

Definition is_digit (c : ascii) : bool :=
  ((48 <=? N_of_ascii c) && (N_of_ascii c <=? 57))%N.

Fixpoint all_digits (s : string) : bool :=
  match s with
  | EmptyString => true
  | String c s' => is_digit c && all_digits s'
  end.

(** An optional minus sign, at least one digit, a point, two digits. *)
Definition two_decimal (v : string) : Prop :=
  exists (neg : bool) (whole : string) (d1 d2 : ascii),
    v = (sign_text neg ++ whole ++ "."
         ++ String d1 (String d2 EmptyString))%string
    /\ whole <> EmptyString /\ all_digits whole = true
    /\ is_digit d1 = true /\ is_digit d2 = true.


(** Every line followed by CRLF. *)
Fixpoint terminated (lines : list string) : string :=
  match lines with
  | [] => EmptyString
  | l :: rest => (l ++ CRLF ++ terminated rest)%string
  end.

Definition is_ascii (s : string) : bool :=
  forallb (fun c => (N_of_ascii c <? 128)%N) (list_ascii_of_string s).

(** The 18 field values of a record, in frame order. *)
Definition field_values (r : WitsRecord.t) : list float :=
  map snd (WitsRecord.items r).

(** *** Rows of one ingestion pass *)

Definition blank_count (rows : list (list string)) : nat :=
  length (filter (fun r => blank_row r = true) rows).

(** Rows that are neither blank nor a sensor gap. *)
Definition kept_row (col : ColumnMap.t) (fields : list string) : bool :=
  negb (blank_row fields) && negb (gap_row col fields).

(** ** Vocabulary of the further properties *)

(** Text made of white space only. *)
Fixpoint all_space (s : string) : bool :=
  match s with
  | EmptyString => true
  | String c s' => is_space c && all_space s'
  end.

(** A field or header cell with white space put around it. *)
Definition padded (l r s : string) : string := (l ++ s ++ r)%string.

(** *** The feed loop along a run

    What stays true of the server and the point where the feed loop is
    suspended, [start] being the server as [__init__] built it: the
    configuration is the one of [start], and the sent counter tells the
    position in the replay ([pass_num - 1] full passes plus the records
    of the current pass already sent). *)

Definition same_setup (a b : WitsServer.t) : Prop :=
  WitsServer.records a = WitsServer.records b
  /\ WitsServer.interval a = WitsServer.interval b
  /\ WitsServer.port a = WitsServer.port b
  /\ WitsServer.loop_replay a = WitsServer.loop_replay b.

(** The counter at each point.  A loop that raised stopped before it
    counted the record it was sending. *)
Definition counter_at (self : WitsServer.t) (at_ : WitsServer.point)
  : Prop :=
  let n := length (WitsServer.records self) in
  let sent := WitsServer.total_sent self in
  let once p := WitsServer.loop_replay self = false -> p = 1%nat in
  match at_ with
  | WitsServer.Created | WitsServer.InitialPoll => sent = 0%nat
  | WitsServer.ReconnectPoll p i rec =>
      WitsServer.records self !! i = Some rec
      /\ (sent + n = p * n + i)%nat /\ (1 <= p)%nat /\ once p
  | WitsServer.Pacing p i =>
      (i < n)%nat /\ (sent + n = p * n + i + 1)%nat /\ (1 <= p)%nat
      /\ once p
  | WitsServer.FinalIdle =>
      WitsServer.loop_replay self = false /\ sent = n
  | WitsServer.Returned | WitsServer.Raised =>
      WitsServer.loop_replay self = false -> (sent <= n)%nat
  | WitsServer.Spinning =>
      WitsServer.records self = [] /\ WitsServer.loop_replay self = true
  end.

Definition feed_invariant (start : WitsServer.t) (c : WitsServer.config)
  : Prop :=
  same_setup c.1 start /\ counter_at c.1 c.2.

(** What neither another task nor a broadcast changes of the server:
    [a] comes from [b] with the records, the configuration and the sent
    counter as they were, and [running] not set again. *)
Definition carried (a b : WitsServer.t) : Prop :=
  same_setup a b
  /\ WitsServer.total_sent a = WitsServer.total_sent b
  /\ (WitsServer.running b = false -> WitsServer.running a = false).

(** What one resumption did: when it broadcast, it took the record from
    the list by its index and either went to the pacing sleep with the
    counter one up, or raised with the counter as it was. *)
Definition accounted (self self' : WitsServer.t) (at_' : WitsServer.point)
  (out : option WitsServer.sent) : Prop :=
  match out with
  | Some s =>
      WitsServer.records self !! WitsServer.sent_index s
      = Some (WitsServer.sent_record s)
      /\ ((at_' = WitsServer.Raised
           /\ WitsServer.total_sent self' = WitsServer.total_sent self)
          \/ ((exists p, at_' = WitsServer.Pacing p (WitsServer.sent_index s))
              /\ WitsServer.total_sent self'
                 = S (WitsServer.total_sent self)))
  | None => WitsServer.total_sent self' = WitsServer.total_sent self
  end.

(** What every broadcast keeps, however it is disturbed; the writers a
    completed broadcast closed are out of the registry. *)
Definition broadcast_keeps (self : WitsServer.t)
  (r : WitsServer.broadcast_result) : Prop :=
  match r with
  | WitsServer.Completed s tr =>
      carried s self
      /\ forall w, w ∈ WitsServer.closed tr -> w ∉ WitsServer.clients s
  | WitsServer.SetChanged s tr => carried s self /\ WitsServer.closed tr = []
  end.

(** *** A broadcast nobody disturbs

    No client connects or leaves while the broadcast is suspended in a
    drain; the shutdown signal may arrive. *)

Definition is_shutdown (ev : WitsServer.event) : bool :=
  match ev with
  | WitsServer.Shutdown => true
  | _ => false
  end.

Definition quiet (e : WitsServer.env) : bool :=
  forallb (forallb is_shutdown) (WitsServer.turns e).

(** No task runs during the drains at all. *)
Definition calm (fails : WitsServer.writer -> bool) : WitsServer.env :=
  WitsServer.Env fails [] [].

(** ** The command line

    [main] without its printing.  What it takes from outside: what
    [parser.parse_args()] makes of the command line, the sorted CSV files
    of the data directory, whether a path exists, and the rows
    [csv.reader] yields for a path ([None] when opening or reading
    raises). *)

Module Args.

Record t : Type := mk {
  file : option string;
  port : Z;
  speed : float;
  loop : bool;
  list : bool }.

End Args.





(** * Properties *)

(** * Floats *)

Section FloatFacts.

Lemma neqb_self (v : float) : neqb v v = is_nan v.
Proof.
  unfold neqb, eqb, SFeqb.
  destruct v as [s | s | | s m e]; simpl; try done.
  - by destruct s.
  - destruct s; rewrite Z.compare_refl, Pos.compare_cont_refl; done.
Qed.

Lemma shr_1_nonneg (mrs : shr_record) :
  0 <= shr_m mrs -> 0 <= shr_m (shr_1 mrs).
Proof.
  destruct mrs as [m r s]; simpl.
  destruct m as [ | [p | p | ] | p]; simpl; lia.
Qed.

Lemma iter_shr_1_nonneg (n : positive) (mrs : shr_record) :
  0 <= shr_m mrs -> 0 <= shr_m (SpecFloat.iter_pos shr_1 n mrs).
Proof.
  revert mrs; induction n as [n IH | n IH | ]; intros mrs H; simpl.
  - apply IH, IH, shr_1_nonneg, H.
  - apply IH, IH, H.
  - apply shr_1_nonneg, H.
Qed.

Lemma shr_fexp_nonneg (m e : Z) (l : location) :
  0 <= m -> 0 <= shr_m (fst (shr_fexp prec emax m e l)).
Proof.
  intros H. unfold shr_fexp, shr.
  assert (H0 : 0 <= shr_m (shr_record_of_loc m l))
    by (destruct l as [ | [ | | ]]; exact H).
  destruct (fexp prec emax (Zdigits2 m + e) - e); simpl; try exact H0.
  by apply iter_shr_1_nonneg.
Qed.

Lemma round_nearest_even_nonneg (m : Z) (l : location) :
  0 <= m -> 0 <= round_nearest_even m l.
Proof.
  intros H. destruct l as [ | [ | | ]]; simpl; try lia.
  destruct (Z.even m); lia.
Qed.

(** Rounding a non-negative mantissa never yields NaN. *)
Lemma binary_round_aux_not_nan (s : bool) (m e : Z) (l : location) :
  0 <= m -> is_nan (binary_round_aux prec emax s m e l) = false.
Proof.
  intros H. unfold binary_round_aux.
  pose proof (shr_fexp_nonneg m e l H) as H1.
  destruct (shr_fexp prec emax m e l) as [mrs' e']. simpl in H1.
  pose proof (shr_fexp_nonneg _ e' loc_Exact
                (round_nearest_even_nonneg _ (loc_of_shr_record mrs') H1)) as H2.
  destruct (shr_fexp prec emax _ e' loc_Exact) as [mrs'' e'']. simpl in H2.
  destruct (shr_m mrs'') as [ | p | p]; [done | | lia].
  by destruct (e'' <=? emax - prec).
Qed.

Lemma mul_finite_not_nan (x : float) (s : bool) (m : positive) (e : Z) :
  is_nan x = false -> is_nan (mul x (S754_finite s m e)) = false.
Proof.
  destruct x as [sx | sx | | sx mx ex]; try done.
  intros _. apply binary_round_aux_not_nan. lia.
Qed.

Lemma div_finite_not_nan (x : float) (s : bool) (m : positive) (e : Z) :
  is_nan x = false -> is_nan (div x (S754_finite s m e)) = false.
Proof.
  destruct x as [sx | sx | | sx mx ex]; try done.
  intros _. unfold div, SFdiv.
  destruct (SFdiv_core_binary prec emax (Z.pos mx) ex (Z.pos m) e)
    as [[q e'] l] eqn:E.
  apply binary_round_aux_not_nan.
  unfold SFdiv_core_binary in E.
  destruct (Z.div_eucl _ (Z.pos m)) as [q0 r0] eqn:D in E.
  injection E as <- _ _.
  match type of D with Z.div_eucl ?a ?b = _ =>
    assert (Ha : 0 <= a);
    [ | pose proof (Z_div_mod a b ltac:(lia)) as Hd; rewrite D in Hd;
        assert (q0 = a / b) by (apply (Z.div_unique_pos a b q0 r0); lia);
        subst q0; apply Z.div_pos; lia ]
  end.
  destruct (_ - _ - _); try lia. apply Z.shiftl_nonneg. lia.
Qed.

Lemma binary_round_not_nan (s : bool) (m : positive) (e : Z) :
  is_nan (binary_round prec emax s m e) = false.
Proof.
  unfold binary_round.
  destruct (shl_align m e _) as [mz ez].
  apply binary_round_aux_not_nan. lia.
Qed.

Lemma add_finite_not_nan (x : float) (s : bool) (m : positive) (e : Z) :
  is_nan x = false -> is_nan (add x (S754_finite s m e)) = false.
Proof.
  destruct x as [sx | sx | | sx mx ex]; try done.
  intros _. unfold add, SFadd, binary_normalize.
  destruct (_ + _); try done; apply binary_round_not_nan.
Qed.

End FloatFacts.

(** * Unit conversion *)

(** The constants are the literals of the program text. *)
Lemma lit_0_0 : lit "0.0" = f_0_0.
Proof. vm_compute; reflexivity. Qed.




Lemma lit_1e_10 : lit "1e-10" = f_1e_10.
Proof. vm_compute; reflexivity. Qed.



Lemma celsius_to_fahrenheit_not_nan (c : float) :
  is_nan c = false -> is_nan (celsius_to_fahrenheit c) = false.
Proof.
  intros H. unfold celsius_to_fahrenheit.
  destruct (eqb c f_0_0); [done | ].
  apply add_finite_not_nan, div_finite_not_nan, mul_finite_not_nan, H.
Qed.

(** * Field extraction *)

Lemma safe_float_cases (fields : list string) (idx : Z) :
  safe_float fields idx = f_0_0
  \/ exists field : string,
       fields !! Z.to_nat idx = Some field
       /\ of_string (strip field) = Some (safe_float fields idx)
       /\ is_nan (safe_float fields idx) = false.
Proof.
  unfold safe_float.
  destruct ((idx <? 0) || (idx >=? Z.of_nat (length fields))); [by left | ].
  destruct (fields !! Z.to_nat idx) as [field | ]; [ | by left].
  destruct (_ || _); [by left | ].
  destruct (of_string (strip field)) as [v | ] eqn:Hv; [ | by left].
  rewrite neqb_self. destruct (is_nan v) eqn:Hn; [by left | ].
  right. exists field. by rewrite Hn.
Qed.

Lemma safe_float_not_nan (fields : list string) (idx : Z) :
  is_nan (safe_float fields idx) = false.
Proof.
  destruct (safe_float_cases fields idx) as [-> | (f & _ & _ & H)]; done.
Qed.

Lemma convert_row_not_nan (col : ColumnMap.t) (fields : list string) :
  Forall (fun x => is_nan x = false) (field_values (convert_row col fields)).
Proof.
  unfold field_values, WitsRecord.items, convert_row; simpl.
  repeat first
    [ apply Forall_nil_2
    | apply Forall_cons_2
    | apply mul_finite_not_nan
    | apply celsius_to_fahrenheit_not_nan
    | apply safe_float_not_nan ].
  destruct (truthy _); apply safe_float_not_nan.
Qed.

(** An invariant of the loop over the rows that holds of the initial
    state and is kept by appending a converted row holds at the end. *)
Lemma load_rows_records_ind (P : WitsRecord.t -> Prop) (col : ColumnMap.t) :
  (forall fields, P (convert_row col fields)) ->
  forall rows st,
    Forall P (records st) ->
    Forall P (records (fold_left (load_row col) rows st)).
Proof.
  intros HP rows. induction rows as [ | fields rows IH]; intros st Hst.
  - exact Hst.
  - simpl. apply IH. unfold load_row.
    destruct (blank_row fields); [exact Hst | ].
    destruct (gap_row col fields); simpl; [exact Hst | ].
    apply Forall_app_2; [exact Hst | ]. apply Forall_singleton, HP.
Qed.

(** C2, as the code has it.  [safe_float] returns 0.0 or the value that
    [float] gives the stripped field text; that value is never NaN, and it
    may be infinite.  Hence no field of a record produced by ingestion is
    NaN. *)
Theorem safe_float_never_nan :
  (forall (fields : list string) (idx : Z),
     is_nan (safe_float fields idx) = false
     /\ (safe_float fields idx = lit "0.0"
         \/ exists field : string,
              fields !! Z.to_nat idx = Some field
              /\ of_string (strip field) = Some (safe_float fields idx)))
  /\ (forall (col : ColumnMap.t) (rows : list (list string)),
        Forall (fun r => Forall (fun x => is_nan x = false) (field_values r))
               (records (load_rows col rows)))
  /\ (forall file_rows : list (list string),
        match load_csv file_rows with
        | Some recs =>
            Forall
              (fun r => Forall (fun x => is_nan x = false) (field_values r))
              recs
        | None => file_rows = []
        end).
Proof.
  assert (Hrows : forall col rows,
    Forall (fun r => Forall (fun x => is_nan x = false) (field_values r))
           (records (load_rows col rows))).
  { intros col rows. unfold load_rows.
    apply load_rows_records_ind; [apply convert_row_not_nan | constructor]. }
  split; [ | split].
  - intros fields idx. split; [apply safe_float_not_nan | ].
    rewrite lit_0_0.
    destruct (safe_float_cases fields idx) as [H | (f & H1 & H2 & _)];
      [by left | right; by exists f].
  - exact Hrows.
  - intros [ | header rows]; simpl; [done | apply Hrows].
Qed.

(** C2 as stated fails: the text "inf" is a float that is not NaN, so
    [safe_float] returns an infinity, and the record built from such a row
    has infinite depth fields. *)
Lemma safe_float_returns_infinity :
  ~ (safe_float ["inf"] 0 = lit "0.0"
     \/ is_finite (safe_float ["inf"] 0) = true)
  /\ exists r : WitsRecord.t,
       load_csv [["Bit Depth m"]; ["inf"]] = Some [r]
       /\ is_finite (WitsRecord.bit_depth r) = false.
Proof.
  split.
  - vm_compute. intros [H | H]; discriminate.
  - eexists. split; [vm_compute; reflexivity | reflexivity].
Qed.

(** * Column mapping *)

Section ColumnMapping.
Import ColumnMap Rules.

Lemma get_set_eq (f : field) (i : Z) (m : t) : get f (set f i m) = i.
Proof. destruct m, f; reflexivity. Qed.

Lemma get_set_ne (f g : field) (i : Z) (m : t) :
  f <> g -> get g (set f i m) = get g m.
Proof. intros H. destruct m, f, g; try reflexivity; done. Qed.

(** The [if]/[elif] chain is the first-match evaluation of the rules. *)
Lemma map_column_first_match (m : t) (i : Z) (col : string) :
  map_column m i col
  = match column_field col with Some f => set f i m | None => m end.
Proof.
  unfold map_column, column_field, rules, first_match.
  repeat match goal with
         | |- context [if ?b then Some _ else _] => destruct b; [reflexivity | ]
         end.
  reflexivity.
Qed.

Lemma get_map_column (f : field) (m : t) (i : Z) (col : string) :
  get f (map_column m i col)
  = if decide (column_field col = Some f) then i else get f m.
Proof.
  rewrite map_column_first_match.
  destruct (column_field col) as [g | ].
  - destruct (decide (Some g = Some f)) as [[= ->] | Hne].
    + apply get_set_eq.
    + apply get_set_ne. congruence.
  - by destruct (decide _).
Qed.

Lemma get_map_columns_from (f : field) (header : list string) :
  forall (i : Z) (m : t),
    get f (map_columns_from i header m)
    = match last_column_from i f header with
      | Some j => j
      | None => get f m
      end.
Proof.
  induction header as [ | col rest IH]; intros i m; simpl; [done | ].
  rewrite IH.
  destruct (last_column_from (i + 1) f rest); [done | ].
  rewrite get_map_column. by destruct (decide _).
Qed.

Lemma last_column_from_None (f : field) (header : list string) :
  forall i : Z,
    last_column_from i f header = None
    <-> Forall (fun col => column_field col <> Some f) header.
Proof.
  induction header as [ | col rest IH]; intros i; simpl.
  - split; [constructor | done].
  - rewrite Forall_cons, <- (IH (i + 1)).
    destruct (last_column_from (i + 1) f rest); [intuition congruence | ].
    destruct (decide (column_field col = Some f)); intuition congruence.
Qed.

Lemma last_column_from_Some (f : field) (header : list string) :
  forall i j : Z,
    last_column_from i f header = Some j ->
    exists (n : nat) (col : string),
      j = i + Z.of_nat n
      /\ header !! n = Some col
      /\ column_field col = Some f
      /\ forall (k : nat) (col' : string),
           (n < k)%nat -> header !! k = Some col' ->
           column_field col' <> Some f.
Proof.
  induction header as [ | col rest IH]; intros i j; simpl; [done | ].
  destruct (last_column_from (i + 1) f rest) as [j' | ] eqn:E.
  - intros [= <-]. destruct (IH _ _ E) as (n & c & -> & Hn & Hc & Hlast).
    exists (S n), c. repeat split; [lia | done | done | ].
    intros [ | k] col' Hk; [lia | ]. simpl. apply Hlast. lia.
  - destruct (decide (column_field col = Some f)) as [Hc | ]; [ | done].
    intros [= <-]. exists 0%nat, col. repeat split; [lia | done | ].
    intros [ | k] col' Hk; [lia | ]. simpl. intros Hk'.
    apply last_column_from_None in E.
    apply (proj1 (Forall_lookup _ _) E k col' Hk').
Qed.

(** [last_column] is the position of the last column standing for [f]. *)
Lemma last_column_spec (f : field) (header : list string) (j : Z) :
  last_column f header = Some j
  <-> exists (n : nat) (col : string),
        j = Z.of_nat n
        /\ header !! n = Some col
        /\ column_field col = Some f
        /\ forall (k : nat) (col' : string),
             (n < k)%nat -> header !! k = Some col' ->
             column_field col' <> Some f.
Proof.
  unfold last_column. split.
  - intros H. destruct (last_column_from_Some _ _ _ _ H)
      as (n & col & -> & Hn & Hc & Hlast).
    exists n, col. split; [lia | ]. split; [done | ]. split; done.
  - intros (n & col & -> & Hn & Hc & Hlast).
    destruct (last_column_from 0 f header) as [j' | ] eqn:E.
    + destruct (last_column_from_Some _ _ _ _ E)
        as (n' & col' & -> & Hn' & Hc' & Hlast').
      destruct (Nat.lt_trichotomy n n') as [Hlt | [-> | Hlt]].
      * by destruct (Hlast n' col' Hlt Hn').
      * done.
      * by destruct (Hlast' n col Hlt Hn).
    + apply last_column_from_None in E.
      by destruct (proj1 (Forall_lookup _ _) E n col Hn).
Qed.

End ColumnMapping.

(** C6.  Each header column sets at most one attribute, the one of the
    first rule (in the fixed order) that its text matches; an attribute
    ends up holding the index of the last header column standing for it,
    and -1 when there is none: when several columns stand for the same
    attribute the last one in header order is recorded. *)
Theorem map_columns_first_pattern_last_column :
  (forall (m : ColumnMap.t) (i : Z) (col : string),
     match Rules.column_field col with
     | Some f =>
         ColumnMap.get f (map_column m i col) = i
         /\ forall g, g <> f ->
              ColumnMap.get g (map_column m i col) = ColumnMap.get g m
     | None => map_column m i col = m
     end)
  /\ (forall (header : list string) (f : ColumnMap.field),
        ColumnMap.get f (map_columns header)
        = match Rules.last_column f header with
          | Some j => j
          | None => -1
          end)
  /\ (forall (header : list string) (f : ColumnMap.field) (j : Z),
        Rules.last_column f header = Some j
        <-> exists (n : nat) (col : string),
              j = Z.of_nat n
              /\ header !! n = Some col
              /\ Rules.column_field col = Some f
              /\ forall (k : nat) (col' : string),
                   (n < k)%nat -> header !! k = Some col' ->
                   Rules.column_field col' <> Some f).
Proof.
  split; [ | split; [ | intros header f j; apply last_column_spec]].
  - intros m i col. rewrite map_column_first_match.
    destruct (Rules.column_field col) as [f | ]; [ | done].
    split; [apply get_set_eq | ].
    intros g Hg. apply get_set_ne. congruence.
  - intros header f. unfold map_columns, Rules.last_column.
    rewrite get_map_columns_from.
    destruct (Rules.last_column_from 0 f header); [done | by destruct f].
Qed.

(** * The ingestion loop *)

Section Ingestion.
Variable col : ColumnMap.t.

(** The three ways a row leaves the loop body. *)
Lemma load_row_cases (st : load_state) (fields : list string) :
  (blank_row fields = true /\ load_row col st fields = st)
  \/ (blank_row fields = false /\ gap_row col fields = true
      /\ load_row col st fields
         = {| records := records st; skipped := S (skipped st) |})
  \/ (blank_row fields = false /\ gap_row col fields = false
      /\ load_row col st fields
         = {| records := (records st ++ [convert_row col fields])%list;
              skipped := skipped st |}).
Proof.
  unfold load_row.
  destruct (blank_row fields); [by left | right].
  destruct (gap_row col fields); [by left | by right].
Qed.

Lemma load_rows_records (rows : list (list string)) :
  forall st : load_state,
    records (fold_left (load_row col) rows st)
    = (records st
       ++ map (convert_row col)
              (filter (fun r => kept_row col r = true) rows))%list.
Proof.
  induction rows as [ | fields rows IH]; intros st; simpl.
  - by rewrite app_nil_r.
  - rewrite IH, filter_cons.
    destruct (load_row_cases st fields)
      as [[Hb ->] | [(Hb & Hg & ->) | (Hb & Hg & ->)]]; simpl.
    + rewrite decide_False; [done | ].
      unfold kept_row. rewrite Hb. done.
    + rewrite decide_False; [done | ].
      unfold kept_row. rewrite Hb, Hg. done.
    + rewrite decide_True; [ | unfold kept_row; by rewrite Hb, Hg].
      simpl. by rewrite <- app_assoc.
Qed.

Lemma load_rows_count (rows : list (list string)) :
  forall st : load_state,
    let st' := fold_left (load_row col) rows st in
    (length (records st') + skipped st' + blank_count rows
     = length (records st) + skipped st + length rows)%nat.
Proof.
  induction rows as [ | fields rows IH]; intros st; simpl.
  - unfold blank_count. simpl. lia.
  - simpl in IH. unfold blank_count in *. rewrite filter_cons.
    destruct (load_row_cases st fields)
      as [[Hb Hst] | [(Hb & Hg & Hst) | (Hb & Hg & Hst)]];
      specialize (IH (load_row col st fields)); rewrite Hst in *; rewrite Hb.
    + rewrite decide_True by done. simpl. lia.
    + rewrite decide_False by done. simpl in *. lia.
    + rewrite decide_False by done. simpl in *.
      rewrite length_app in IH. simpl in IH. lia.
Qed.

End Ingestion.

(** C3, as the code has it.  Every row read after the header leaves the
    loop body in exactly one of three ways: dropped as blank (neither
    emitted nor counted), counted as skipped, or emitted as a record; so
    emitted + skipped + blank = rows read. *)
Theorem load_rows_partition :
  (forall (col : ColumnMap.t) (st : load_state) (fields : list string),
     (blank_row fields = true /\ load_row col st fields = st)
     \/ (blank_row fields = false
         /\ load_row col st fields
            = {| records := records st; skipped := S (skipped st) |})
     \/ (blank_row fields = false
         /\ load_row col st fields
            = {| records := (records st ++ [convert_row col fields])%list;
                 skipped := skipped st |}))
  /\ (forall (col : ColumnMap.t) (rows : list (list string)),
        (length (records (load_rows col rows))
         + skipped (load_rows col rows)
         + blank_count rows
         = length rows)%nat).
Proof.
  split.
  - intros col st fields.
    destruct (load_row_cases col st fields)
      as [H | [(Hb & _ & H) | (Hb & _ & H)]]; auto.
  - intros col rows. unfold load_rows.
    pose proof (load_rows_count col rows {| records := []; skipped := 0 |})
      as H.
    simpl in H. lia.
Qed.

(** C3 as stated fails on blank rows: an empty line and a line of empty
    fields are read, not emitted and not counted. *)
Lemma blank_rows_are_not_counted :
  let rows := [[]; [EmptyString; " "]] in
  let st := load_rows (map_columns ["Bit Depth m"; "Weight on Bit kkgf"]) rows
  in
  (length (records st) + skipped st)%nat <> length rows.
Proof. vm_compute. discriminate. Qed.

(** C4, as the code has it.  A row that is not blank is counted as
    skipped, and not emitted, exactly when the five raw values weight on
    bit, rotary speed, rate of penetration, standpipe pressure and bit
    depth all satisfy [abs(x) < 1e-10], whatever the other thirteen
    channels hold; otherwise it is emitted. *)
Theorem load_row_skips_gap_rows
  (col : ColumnMap.t) (st : load_state) (fields : list string) :
  blank_row fields = false ->
  let within (idx : Z) :=
    ltb (abs (safe_float fields idx)) (lit "1e-10") = true in
  let gap :=
    within (ColumnMap.wob col) /\ within (ColumnMap.rpm col)
    /\ within (ColumnMap.rop col) /\ within (ColumnMap.spp col)
    /\ within (ColumnMap.bit_depth col) in
  (load_row col st fields
   = {| records := records st; skipped := S (skipped st) |} <-> gap)
  /\ (~ gap ->
      load_row col st fields
      = {| records := (records st ++ [convert_row col fields])%list;
           skipped := skipped st |}).
Proof.
  intros Hb within gap.
  assert (Hgap : gap <-> gap_row col fields = true).
  { unfold gap, within, gap_row, near_zero. rewrite lit_1e_10.
    rewrite !andb_true_iff. tauto. }
  unfold load_row. rewrite Hb.
  destruct (gap_row col fields).
  - split; [tauto | ]. intros H. tauto.
  - split; [ | done]. split.
    + intros [= _ H]. lia.
    + intros H. apply Hgap in H. discriminate.
Qed.

Lemma load_row_skips_gap_rows_witness :
  let col := map_columns ["Bit Depth m"; "Weight on Bit kkgf"; "Gas (avg) %"]
  in
  load_row col {| records := []; skipped := 0 |} ["0.0"; EmptyString; "3.5"]
  = {| records := []; skipped := 1 |}.
Proof.
  intros col.
  apply (load_row_skips_gap_rows col {| records := []; skipped := 0 |}
           ["0.0"; EmptyString; "3.5"]); [vm_compute; reflexivity | ].
  repeat split; vm_compute; reflexivity.
Defined.

(** C4 as stated fails on a blank row: its five raw values read as 0.0,
    yet the row is dropped before the test and the counter stays. *)
Lemma blank_row_is_not_skipped :
  let col := map_columns ["Bit Depth m"; "Weight on Bit kkgf"] in
  let st := {| records := []; skipped := 0 |} in
  let fields := [EmptyString; " "] in
  let within (idx : Z) :=
    ltb (abs (safe_float fields idx)) (lit "1e-10") = true in
  (within (ColumnMap.wob col) /\ within (ColumnMap.rpm col)
   /\ within (ColumnMap.rop col) /\ within (ColumnMap.spp col)
   /\ within (ColumnMap.bit_depth col))
  /\ load_row col st fields
     <> {| records := records st; skipped := S (skipped st) |}.
Proof.
  repeat split; try (vm_compute; reflexivity).
  vm_compute. discriminate.
Qed.

(** C9, as the code has it.  [load_csv] returns the records alone: the
    rows that are neither blank nor a sensor gap, converted, in row
    order.  The counter of skipped rows is not part of the result. *)
Theorem load_csv_returns_records :
  load_csv [] = None
  /\ forall (header : list string) (rows : list (list string)),
       load_csv (header :: rows)
       = Some (map (convert_row (map_columns header))
                 (filter (fun r => kept_row (map_columns header) r = true)
                         rows)).
Proof.
  split; [reflexivity | ].
  intros header rows. unfold load_csv, load_rows.
  by rewrite load_rows_records.
Qed.

(** C9 as stated fails: two files with the same result and different
    numbers of skipped rows, so the result does not carry the count. *)
Lemma load_csv_drops_skipped_count :
  let header := ["Bit Depth m"; "Weight on Bit kkgf"] in
  load_csv [header] = load_csv [header; ["0"; "0"]]
  /\ skipped (load_rows (map_columns header) []) = 0%nat
  /\ skipped (load_rows (map_columns header) [["0"; "0"]]) = 1%nat.
Proof. repeat split; vm_compute; reflexivity. Qed.

(** * The frame encoder *)

#[local] Arguments String.append !s1 s2 : simpl nomatch.

Section Text.

Lemma append_assoc (a b c : string) : ((a ++ b) ++ c = a ++ (b ++ c))%string.
Proof. induction a as [ | x a IH]; simpl; [done | by rewrite IH]. Qed.

Lemma is_ascii_app (a b : string) :
  is_ascii (a ++ b) = is_ascii a && is_ascii b.
Proof.
  unfold is_ascii. induction a as [ | x a IH]; simpl; [done | ].
  by rewrite IH, andb_assoc.
Qed.

Lemma is_digit_ascii (c : ascii) :
  is_digit c = true -> (N_of_ascii c <? 128)%N = true.
Proof.
  unfold is_digit. intros [_ H%N.leb_le]%andb_true_iff.
  apply N.ltb_lt. lia.
Qed.

Lemma all_digits_ascii (s : string) : all_digits s = true -> is_ascii s = true.
Proof.
  unfold is_ascii. induction s as [ | c s IH]; simpl; [done | ].
  intros [Hc Hs]%andb_true_iff. by rewrite (is_digit_ascii c Hc), IH.
Qed.

Lemma encode_ascii_total (s : string) :
  is_ascii s = true -> encode_ascii s = Some (list_byte_of_string s).
Proof.
  unfold is_ascii. induction s as [ | c s IH]; simpl; [done | ].
  intros [Hc Hs]%andb_true_iff. by rewrite Hc, (IH Hs).
Qed.

Lemma join_terminated (l : string) (lines : list string) :
  (join CRLF (l :: lines) ++ CRLF)%string = terminated (l :: lines).
Proof.
  revert l. induction lines as [ | l' lines IH]; intros l.
  - reflexivity.
  - change (join CRLF (l :: l' :: lines))
      with (l ++ CRLF ++ join CRLF (l' :: lines))%string.
    rewrite !append_assoc, IH. reflexivity.
Qed.

Lemma terminated_app (xs ys : list string) :
  terminated (xs ++ ys) = (terminated xs ++ terminated ys)%string.
Proof.
  induction xs as [ | x xs IH]; [done | ].
  change (terminated ((x :: xs) ++ ys))
    with (x ++ CRLF ++ terminated (xs ++ ys))%string.
  change (terminated (x :: xs)) with (x ++ CRLF ++ terminated xs)%string.
  by rewrite IH, !append_assoc.
Qed.

Lemma terminated_ascii (lines : list string) :
  Forall (fun l => is_ascii l = true) lines ->
  is_ascii (terminated lines) = true.
Proof.
  induction 1 as [ | l lines Hl _ IH]; [done | ].
  change (terminated (l :: lines))
    with (l ++ CRLF ++ terminated lines)%string.
  by rewrite !is_ascii_app, Hl, IH.
Qed.

End Text.

Section Format.

Lemma string_of_uint_digits (u : Decimal.uint) :
  all_digits (NilEmpty.string_of_uint u) = true.
Proof. induction u; simpl; done. Qed.

Lemma digits_of_digits (n : Z) : all_digits (digits_of n) = true.
Proof. apply string_of_uint_digits. Qed.

Lemma digits_of_nonempty (n : Z) : digits_of n <> EmptyString.
Proof.
  unfold digits_of. destruct (Z.to_N n) as [ | p]; simpl; [done | ].
  pose proof (Unsigned.to_uint_nonnil p) as H.
  destruct (Pos.to_uint p); simpl; done.
Qed.

Lemma digit_char_digit (d : Z) :
  0 <= d <= 9 -> is_digit (digit_char d) = true.
Proof.
  intros H.
  assert (Hd : d = 0 \/ d = 1 \/ d = 2 \/ d = 3 \/ d = 4 \/ d = 5
               \/ d = 6 \/ d = 7 \/ d = 8 \/ d = 9) by lia.
  repeat destruct Hd as [-> | Hd]; try subst d; reflexivity.
Qed.

Lemma two_digits_shape (n : Z) :
  0 <= n < 100 ->
  exists d1 d2 : ascii,
    two_digits n = String d1 (String d2 EmptyString)
    /\ is_digit d1 = true /\ is_digit d2 = true.
Proof.
  intros H. eexists _, _. split; [reflexivity | ].
  split; apply digit_char_digit.
  - split; [apply Z.div_pos; lia | ].
    apply Z.lt_succ_r, Z.div_lt_upper_bound; lia.
  - pose proof (Z.mod_pos_bound n 10). lia.
Qed.

(** A finite float prints as a two-decimal text. *)
Lemma format_2f_two_decimal (x : float) :
  is_finite x = true -> two_decimal (format_2f x).
Proof.
  destruct x as [s | s | | s m e]; try done; intros _.
  - exists s, "0", "0"%char, "0"%char. done.
  - change (format_2f (S754_finite s m e))
      with (sign_text s ++ digits_of (hundredths m e / 100) ++ "."
            ++ two_digits (hundredths m e mod 100))%string.
    destruct (two_digits_shape (hundredths m e mod 100))
      as (d1 & d2 & -> & H1 & H2).
    { apply Z.mod_pos_bound. lia. }
    exists s, (digits_of (hundredths m e / 100)), d1, d2.
    split; [reflexivity | ].
    split; [apply digits_of_nonempty | ].
    split; [apply digits_of_digits | done].
Qed.

(** Every float prints in ASCII, also the infinities and NaN. *)
Lemma format_2f_ascii (x : float) : is_ascii (format_2f x) = true.
Proof.
  destruct x as [[] | [] | | s m e]; try done.
  change (format_2f (S754_finite s m e))
    with (sign_text s ++ digits_of (hundredths m e / 100) ++ "."
          ++ two_digits (hundredths m e mod 100))%string.
  rewrite !is_ascii_app.
  destruct (two_digits_shape (hundredths m e mod 100))
    as (d1 & d2 & -> & H1 & H2).
  { apply Z.mod_pos_bound. lia. }
  rewrite (all_digits_ascii _ (digits_of_digits _)).
  assert (H : is_ascii (String d1 (String d2 EmptyString)) = true).
  { unfold is_ascii. simpl.
    by rewrite (is_digit_ascii _ H1), (is_digit_ascii _ H2). }
  rewrite H. by destruct s.
Qed.

End Format.

(** The encoder never raises: every frame is ASCII text. *)
Lemma to_wits_frame_text (r : WitsRecord.t) :
  to_wits_frame r
  = Some (list_byte_of_string (terminated (frame_lines r))).
Proof.
  unfold to_wits_frame, frame_lines.
  change (["&&"] ++ ?l)%list with ("&&" :: l).
  rewrite join_terminated. apply encode_ascii_total, terminated_ascii.
  constructor; [done | ].
  apply Forall_app_2; [ | by constructor].
  apply Forall_map, Forall_forall. intros [code value] Hin. simpl.
  rewrite is_ascii_app, format_2f_ascii, andb_true_r.
  unfold WitsRecord.items in Hin.
  repeat (apply elem_of_cons in Hin as [[= -> _] | Hin]; [reflexivity | ]).
  by apply elem_of_nil in Hin.
Qed.



Example to_wits_frame_example :
  option_map string_of_list_byte
    (to_wits_frame
       (convert_row
          (map_columns ["Bit Depth m"; "Weight on Bit kkgf"; "Tmp In degC"])
          ["1000.0"; "-10"; "21.5"]))
  = Some ("&&" ++ CRLF ++ "01083280.84" ++ CRLF ++ "01103280.84" ++ CRLF
          ++ "01130.00" ++ CRLF ++ "01140.00" ++ CRLF ++ "0116-22.05" ++ CRLF
          ++ "01170.00" ++ CRLF ++ "01180.00" ++ CRLF ++ "01190.00" ++ CRLF
          ++ "01200.00" ++ CRLF ++ "01210.00" ++ CRLF ++ "01240.00" ++ CRLF
          ++ "01250.00" ++ CRLF ++ "01500.00" ++ CRLF ++ "012670.70" ++ CRLF
          ++ "01270.00" ++ CRLF ++ "01400.00" ++ CRLF ++ "01230.00" ++ CRLF
          ++ "01050.00" ++ CRLF ++ "!!" ++ CRLF)%string.
Proof. vm_compute. reflexivity. Qed.

(** * The broadcast step *)

Section Broadcast.
Import WitsServer.

Lemma elem_of_discard_all (dead : list writer) :
  forall (cl : gset writer) (w : writer),
    w ∈ discard_all dead cl <-> w ∈ cl /\ w ∉ dead.
Proof.
  unfold discard_all.
  induction dead as [ | d dead IH]; intros cl w; simpl.
  - rewrite elem_of_nil. tauto.
  - rewrite IH, elem_of_difference, elem_of_singleton, not_elem_of_cons.
    tauto.
Qed.

Lemma carried_refl (self : t) : carried self self.
Proof. by repeat split. Qed.

Lemma carried_trans (a b c : t) : carried a b -> carried b c -> carried a c.
Proof.
  intros ((H1 & H2 & H3 & H4) & H5 & H6) ((H7 & H8 & H9 & H10) & H11 & H12).
  repeat split; try congruence. auto.
Qed.

Lemma carried_handle (ev : event) (self : t) : carried (handle ev self) self.
Proof. destruct ev; by repeat split. Qed.

(** An event that does not touch the registry leaves it as it is. *)
Lemma handle_untouched (ev : event) (self : t) :
  touches ev self = false -> clients (handle ev self) = clients self.
Proof.
  destruct ev as [w | w | ]; simpl; [ | | done].
  - intros H%bool_decide_eq_false. apply dec_stable in H.
    apply set_eq. intros x. rewrite elem_of_union, elem_of_singleton.
    split; [intros [Hx | ->]; done | by left].
  - intros H%bool_decide_eq_false.
    apply set_eq. intros x. rewrite elem_of_difference, elem_of_singleton.
    split; [tauto | ]. intros Hx. split; [done | congruence].
Qed.

Lemma suspend_carried (es : list event) :
  forall self : t,
    carried (suspend es self).1 self
    /\ ((suspend es self).2 = false ->
        clients (suspend es self).1 = clients self).
Proof.
  induction es as [ | ev es IH]; intros self; simpl.
  - split; [apply carried_refl | done].
  - destruct (IH (handle ev self)) as [Hc Hu].
    destruct (suspend es (handle ev self)) as [s' ch]. simpl in *.
    split.
    + apply (carried_trans _ (handle ev self)); [done | ].
      apply carried_handle.
    + intros [Ht ->]%orb_false_elim.
      rewrite Hu by done. by apply handle_untouched.
Qed.

Lemma suspend_quiet (es : list event) :
  forall self : t,
    forallb is_shutdown es = true -> (suspend es self).2 = false.
Proof.
  induction es as [ | ev es IH]; intros self; simpl; [done | ].
  intros [Hev Hes]%andb_prop.
  specialize (IH (handle ev self) Hes).
  destruct (suspend es (handle ev self)) as [s' ch]. simpl in *.
  subst ch. by destruct ev.
Qed.

(** The iterator raises as soon as it is asked with another size. *)
Lemma visit_other_size (fl : writer -> bool) (data : bytes) (used : nat)
  (order : list writer) (ts : list (list event)) (wk : list writer)
  (self : t) (dead : list writer) (log : list (writer * bytes)) :
  size (clients self) <> used ->
  visit fl data used order ts wk self dead log
  = SetChanged self {| written := log; closed := [] |}.
Proof.
  intros H%Nat.eqb_neq.
  destruct order; simpl; unfold same_size; by rewrite H.
Qed.

Lemma visit_changed_other_size (fl : writer -> bool) (data : bytes)
  (used : nat) (wk : list writer) (ts : list (list event))
  (self : t) (dead : list writer) (log : list (writer * bytes)) :
  size (clients self) <> used ->
  visit_changed fl data used wk ts self dead log
  = SetChanged self {| written := log; closed := [] |}.
Proof.
  intros H%Nat.eqb_neq.
  destruct wk; simpl; unfold same_size; by rewrite H.
Qed.

Lemma finish_keeps (self0 self : t) (dead : list writer)
  (log : list (writer * bytes)) :
  carried self self0 -> broadcast_keeps self0 (finish self dead log).
Proof.
  intros Hc. split.
  - apply (carried_trans _ self); [ | done]. by repeat split.
  - simpl. intros w Hw. rewrite elem_of_discard_all. tauto.
Qed.

Lemma visit_changed_keeps (fl : writer -> bool) (data : bytes)
  (used : nat) (self0 : t) (wk : list writer) :
  forall (ts : list (list event)) (self : t) (dead : list writer)
         (log : list (writer * bytes)),
    carried self self0 ->
    broadcast_keeps self0 (visit_changed fl data used wk ts self dead log).
Proof.
  induction wk as [ | w wk IH]; intros ts self dead log Hc; simpl;
    destruct (same_size self used); simpl; try done.
  - by apply (finish_keeps self0 self dead log).
  - destruct (bool_decide (w ∈ clients self)); [ | by apply IH].
    destruct (suspend_carried (hd [] ts) self) as [Hs _].
    destruct (suspend (hd [] ts) self) as [s' ch]. simpl in Hs.
    apply IH. by apply (carried_trans _ self).
Qed.

Lemma visit_keeps (fl : writer -> bool) (data : bytes)
  (used : nat) (self0 : t) (wk : list writer) (order : list writer) :
  forall (ts : list (list event)) (self : t) (dead : list writer)
         (log : list (writer * bytes)),
    carried self self0 ->
    broadcast_keeps self0 (visit fl data used order ts wk self dead log).
Proof.
  induction order as [ | w order IH]; intros ts self dead log Hc; simpl;
    destruct (same_size self used); simpl; try done.
  - by apply (finish_keeps self0 self dead log).
  - destruct (suspend_carried (hd [] ts) self) as [Hs _].
    destruct (suspend (hd [] ts) self) as [s' ch]. simpl in Hs.
    assert (Hc' : carried s' self0) by by apply (carried_trans _ self).
    destruct ch; [by apply visit_changed_keeps | by apply IH].
Qed.

Lemma broadcast_keeps_all (e : env) (self : t) (data : bytes) :
  broadcast_keeps self (broadcast e self data).
Proof. apply visit_keeps, carried_refl. Qed.

(** The first loop when nobody touches the registry meanwhile. *)
Lemma visit_quiet (fl : writer -> bool) (data : bytes) (used : nat)
  (wk : list writer) (order : list writer) :
  forall (ts : list (list event)) (self : t) (dead : list writer)
         (log : list (writer * bytes)),
    forallb (forallb is_shutdown) ts = true ->
    size (clients self) = used ->
    exists self1 : t,
      visit fl data used order ts wk self dead log
      = finish self1 (dead ++ filter (fun w => fl w = true) order)
                     (log ++ map (fun w => (w, data)) order)
      /\ clients self1 = clients self
      /\ carried self1 self
      /\ (ts = [] -> self1 = self).
Proof.
  induction order as [ | w order IH]; intros ts self dead log Hq Hsize;
    simpl; unfold same_size; rewrite Hsize, Nat.eqb_refl; simpl.
  - exists self. rewrite !app_nil_r.
    split; [done | ]. split; [done | ]. split; [apply carried_refl | done].
  - assert (Hes : forallb is_shutdown (hd [] ts) = true
                  /\ forallb (forallb is_shutdown) (tl ts) = true).
    { destruct ts; [done | ]. by apply andb_prop. }
    destruct Hes as [Hes Hts].
    pose proof (suspend_quiet _ self Hes) as Hch.
    destruct (suspend_carried (hd [] ts) self) as [Hc Hu].
    assert (Hnil : ts = [] -> (suspend (hd [] ts) self).1 = self)
      by by intros ->.
    destruct (suspend (hd [] ts) self) as [s' ch]. simpl in *. subst ch.
    specialize (Hu eq_refl).
    destruct (IH (tl ts) s'
                (if fl w then dead ++ [w] else dead)%list
                (log ++ [(w, data)])%list Hts)
      as (self1 & -> & H1 & H2 & H3); [by rewrite Hu | ].
    exists self1. rewrite filter_cons.
    split; [ | split; [congruence | split]].
    + destruct (fl w); simpl; by rewrite <- ?app_assoc.
    + by apply (carried_trans _ s').
    + intros ->. rewrite H3 by done. by apply Hnil.
Qed.

Lemma broadcast_quiet (e : env) (self : t) (data : bytes) :
  quiet e = true ->
  exists self1 : t,
    broadcast e self data
    = finish self1
        (filter (fun w => fails e w = true) (elements (clients self)))
        (map (fun w => (w, data)) (elements (clients self)))
    /\ clients self1 = clients self
    /\ carried self1 self
    /\ (turns e = [] -> self1 = self).
Proof.
  intros Hq. unfold broadcast.
  destruct (visit_quiet (fails e) data (size (clients self)) (walk e)
              (elements (clients self)) (turns e) self [] [] Hq eq_refl)
    as (self1 & H & H1 & H2 & H3).
  exists self1. by rewrite H.
Qed.

(** Nobody disturbs the broadcast: it returns, and exactly the clients
    whose write did not fail are left. *)
Lemma broadcast_quiet_clients (e : env) (self : t) (data : bytes) :
  quiet e = true ->
  exists (self' : t) (tr : broadcast_trace),
    broadcast e self data = Completed self' tr
    /\ (forall w, w ∈ clients self'
                  <-> w ∈ clients self /\ fails e w = false)
    /\ carried self' self.
Proof.
  intros Hq.
  destruct (broadcast_quiet e self data Hq) as (self1 & -> & Hcl & Hc & _).
  eexists _, _. split; [reflexivity | ]. split.
  - intros w. simpl.
    rewrite elem_of_discard_all, Hcl, list_elem_of_filter, elem_of_elements.
    destruct (fails e w); intuition congruence.
  - apply (carried_trans _ self1); [by repeat split | exact Hc].
Qed.

(** A change of size during the first drain: the error leaves the
    broadcast after one write, before the second loop. *)
Lemma broadcast_raises (e : env) (self : t) (data : bytes) (w : writer)
  (order : list writer) (es : list event) (ts : list (list event)) :
  elements (clients self) = w :: order ->
  turns e = es :: ts ->
  size (clients (suspend es self).1) <> size (clients self) ->
  broadcast e self data
  = SetChanged (suspend es self).1
               {| written := [(w, data)]; closed := [] |}.
Proof.
  intros Ho Ht Hsize. unfold broadcast. rewrite Ho, Ht. simpl.
  unfold same_size at 1. rewrite Nat.eqb_refl. simpl.
  destruct (suspend es self) as [s' ch]. simpl in Hsize.
  destruct ch;
    [by apply visit_changed_other_size | by apply visit_other_size].
Qed.

End Broadcast.

(** C8 at an input where it fails.  Two clients are registered and every
    write fails.  While the broadcast awaits the drain of the first
    client, a third client connects.  The set iterator then raises: the
    second client gets no write, and the client whose write failed is
    neither closed nor removed. *)
Theorem broadcast_aborted_by_registry_change :
  let self :=
    WitsServer.mk [] (lit "1.0") 10001 false {[1%nat; 2%nat]} true 0 in
  let e :=
    WitsServer.Env (fun _ => true) [[WitsServer.Connect 3%nat]] [] in
  forall data : WitsServer.bytes,
  exists (w : WitsServer.writer) (self' : WitsServer.t),
    WitsServer.broadcast e self data
    = WitsServer.SetChanged self'
        {| WitsServer.written := [(w, data)]; WitsServer.closed := [] |}
    /\ size (WitsServer.clients self) = 2%nat
    /\ w ∈ WitsServer.clients self
    /\ WitsServer.fails e w = true
    /\ WitsServer.clients self' = {[1%nat; 2%nat; 3%nat]}.
Proof.
  intros self e data.
  destruct (elements (WitsServer.clients self)) as [ | w order] eqn:Ho;
    [vm_compute in Ho; discriminate Ho | ].
  exists w, (WitsServer.suspend [WitsServer.Connect 3%nat] self).1.
  split.
  { apply (broadcast_raises e self data w order
             [WitsServer.Connect 3%nat] []); [done | done | ].
    vm_compute. discriminate. }
  split; [vm_compute; reflexivity | ].
  split; [apply elem_of_elements; rewrite Ho; left | ].
  split; [reflexivity | vm_compute; reflexivity].
Qed.

(** * The feed loop *)

Section FeedLoop.
Import WitsServer.

Variable e : env.



(** The encoder never fails, so a send always broadcasts. *)
Lemma send_spec (self : t) (pass_num i : nat) (rec : WitsRecord.t) :
  exists frame : bytes,
    to_wits_frame rec = Some frame
    /\ send e self pass_num i rec
       = match broadcast e self frame with
         | Completed self1 tr =>
             (set_total_sent self1 (total_sent self1 + 1)%nat,
              Pacing pass_num i, Some (Sent i rec tr))
         | SetChanged self1 tr =>
             (self1, Raised, Some (Sent i rec tr))
         end.
Proof.
  unfold send. rewrite to_wits_frame_text. eexists. split; reflexivity.
Qed.

(** A send counts once and goes to the pacing sleep when [broadcast]
    returns; when [broadcast] raises, the loop ends uncounted. *)
Lemma send_effect (self : t) (pass_num i : nat) (rec : WitsRecord.t) :
  exists (self' : t) (tr : broadcast_trace),
    same_setup self' self
    /\ (running self = false -> running self' = false)
    /\ ((send e self pass_num i rec
         = (self', Pacing pass_num i, Some (Sent i rec tr))
         /\ total_sent self' = S (total_sent self))
        \/ (send e self pass_num i rec
            = (self', Raised, Some (Sent i rec tr))
            /\ total_sent self' = total_sent self)).
Proof.
  destruct (send_spec self pass_num i rec) as (frame & _ & ->).
  pose proof (broadcast_keeps_all e self frame) as Hk.
  destruct (broadcast e self frame) as [s1 tr | s1 tr];
    destruct Hk as [(Hs & Ht & Hr) _].
  - exists (set_total_sent s1 (total_sent s1 + 1)%nat), tr.
    split; [exact Hs | ]. split; [exact Hr | left].
    split; [reflexivity | simpl; lia].
  - exists s1, tr.
    split; [exact Hs | ]. split; [exact Hr | right]. by split.
Qed.



End FeedLoop.

(** A feed loop that raised is over: it stays where it is and counts
    nothing any more. *)
Lemma raised_is_final (self : WitsServer.t) (c : WitsServer.config) :
  rtc WitsServer.step (self, WitsServer.Raised) c ->
  c.2 = WitsServer.Raised
  /\ WitsServer.total_sent c.1 = WitsServer.total_sent self.
Proof.
  remember (self, WitsServer.Raised) as c0 eqn:E.
  intros H. revert self E.
  induction H as [c | c1 c2 c3 Hstep _ IH]; intros self ->; [done | ].
  inversion Hstep as [ev s a _ | e s a s' a' out Hres]; subst.
  - destruct (IH _ eq_refl) as [H1 H2]. split; [done | ].
    rewrite H2. by destruct ev.
  - simpl in Hres. injection Hres as <- <- <-. by apply IH.
Qed.

(** C10 at an input where it fails.  The server runs, two clients are
    registered when the iteration of record 0 checks the registry, and
    every write fails.  A third client connects during the first awaited
    drain: [broadcast] raises, the counter stays at 0, and the feed loop
    is over, so that record 0 is never counted and record 1 never sent. *)
Theorem feed_loop_dies_uncounted :
  let r0 := convert_row (map_columns ["Bit Depth m"]) ["1000.0"] in
  let r1 := convert_row (map_columns ["Bit Depth m"]) ["1001.0"] in
  let e :=
    WitsServer.Env (fun _ => true) [[WitsServer.Connect 3%nat]] [] in
  exists (start self self' : WitsServer.t)
         (tr : WitsServer.broadcast_trace),
    WitsServer.init [r0; r1] (lit "1.0") 10001 false = Some start
    /\ WitsServer.reachable start (self, WitsServer.InitialPoll)
    /\ WitsServer.running self = true
    /\ WitsServer.clients self = {[1%nat; 2%nat]}
    /\ WitsServer.total_sent self = 0%nat
    /\ WitsServer.resume e self WitsServer.InitialPoll
       = WitsServer.iteration e self 1 0 r0
    /\ WitsServer.iteration e self 1 0 r0
       = (self', WitsServer.Raised, Some (WitsServer.Sent 0 r0 tr))
    /\ length (WitsServer.written tr) = 1%nat
    /\ WitsServer.closed tr = []
    /\ WitsServer.clients self' = {[1%nat; 2%nat; 3%nat]}
    /\ WitsServer.total_sent self' = 0%nat
    /\ forall c : WitsServer.config,
         rtc WitsServer.step (self', WitsServer.Raised) c ->
         c.2 = WitsServer.Raised /\ WitsServer.total_sent c.1 = 0%nat.
Proof.
  intros r0 r1 e.
  pose (start := WitsServer.mk [r0; r1] (div f_1_0 (lit "1.0")) 10001
                   false ∅ true 0).
  pose (self := WitsServer.handle (WitsServer.Connect 2%nat)
                  (WitsServer.handle (WitsServer.Connect 1%nat) start)).
  assert (Hit : exists self' tr,
            WitsServer.iteration e self 1 0 r0
            = (self', WitsServer.Raised, Some (WitsServer.Sent 0 r0 tr))
            /\ length (WitsServer.written tr) = 1%nat
            /\ WitsServer.closed tr = []
            /\ WitsServer.clients self' = {[1%nat; 2%nat; 3%nat]}
            /\ WitsServer.total_sent self' = 0%nat).
  { destruct (WitsServer.iteration e self 1 0 r0) as [[s a] o] eqn:H.
    vm_compute in H. injection H as <- <- <-.
    eexists _, _. split; [reflexivity | ]. split; [reflexivity | ].
    split; [reflexivity | ].
    split; [vm_compute; reflexivity | reflexivity]. }
  destruct Hit as (self' & tr & Hit & H1 & H2 & H3 & H4).
  exists start, self, self', tr.
  split; [vm_compute; reflexivity | ].
  split.
  { eapply rtc_l;
      [eapply (WitsServer.step_feed (calm (fun _ => false)));
       vm_compute; reflexivity | ].
    eapply rtc_l;
      [by apply (WitsServer.step_event (WitsServer.Connect 1%nat)) | ].
    eapply rtc_l;
      [by apply (WitsServer.step_event (WitsServer.Connect 2%nat)) | ].
    apply rtc_refl. }
  split; [reflexivity | ].
  split; [vm_compute; reflexivity | ].
  split; [reflexivity | ].
  split; [reflexivity | ].
  split; [exact Hit | ].
  split; [exact H1 | ]. split; [exact H2 | ]. split; [exact H3 | ].
  split; [exact H4 | ].
  intros c Hc. destruct (raised_is_final _ _ Hc) as [Hr Ht].
  split; [exact Hr | ]. by rewrite Ht.
Qed.

Ltac feed_step :=
  eapply (WitsServer.step_feed (calm (fun _ => false)));
  vm_compute; reflexivity.

Ltac event_step ev := apply (WitsServer.step_event ev); discriminate.

(** C7 at the input where it fails.  The registry empties during the
    replay and the loop polls with record 1 pending; the shutdown signal
    arrives; the poll loop ends and the loop falls through to the send:
    record 1 is broadcast to nobody and counted, with the registry still
    empty. *)
Theorem shutdown_while_idle_counts_a_record :
  let r0 := convert_row (map_columns ["Bit Depth m"]) ["1000.0"] in
  let r1 := convert_row (map_columns ["Bit Depth m"]) ["1001.0"] in
  exists (start self : WitsServer.t),
    WitsServer.init [r0; r1] (lit "1.0") 10001 false = Some start
    /\ WitsServer.reachable start (self, WitsServer.ReconnectPoll 1 1 r1)
    /\ WitsServer.clients self = ∅
    /\ WitsServer.running self = false
    /\ WitsServer.total_sent self = 1%nat
    /\ WitsServer.pending self (WitsServer.ReconnectPoll 1 1 r1) = Some 1%nat
    /\ forall e : WitsServer.env,
         exists (self' : WitsServer.t) (tr : WitsServer.broadcast_trace),
           WitsServer.resume e self (WitsServer.ReconnectPoll 1 1 r1)
           = (self', WitsServer.Pacing 1 1,
              Some (WitsServer.Sent 1 r1 tr))
           /\ WitsServer.written tr = []
           /\ WitsServer.clients self' = ∅
           /\ WitsServer.total_sent self' = 2%nat.
Proof.
  intros r0 r1.
  eexists _, _.
  split; [vm_compute; reflexivity | ].
  split.
  { unfold WitsServer.reachable.
    (* the loop starts and polls; client 1 connects; record 0 is sent;
       client 1 leaves; the loop polls with record 1 pending; shutdown *)
    eapply rtc_l; [feed_step | ].
    eapply rtc_l; [event_step (WitsServer.Connect 1%nat) | ].
    eapply rtc_l; [feed_step | ].
    eapply rtc_l; [event_step (WitsServer.Disconnect 1%nat) | ].
    eapply rtc_l; [feed_step | ].
    eapply rtc_l; [event_step WitsServer.Shutdown | ].
    vm_compute. apply rtc_refl. }
  split; [vm_compute; reflexivity | ].
  split; [reflexivity | ].
  split; [reflexivity | ].
  split; [reflexivity | ].
  intros e. eexists _, _.
  split; [vm_compute; reflexivity | ].
  split; [reflexivity | ].
  split; [vm_compute; reflexivity | reflexivity].
Qed.

(** * Further properties of the loader *)

(** X1.  Hole depth falls back to bit depth: when the raw hole depth is
    zero (absent column, blank or unparseable text, 0 or -0.0) the record's
    hole depth is its bit depth; otherwise it is the raw hole depth in
    feet.  The test is on the raw metric value. *)
Theorem hole_depth_fallback (col : ColumnMap.t) (fields : list string) :
  let raw_hole := safe_float fields (ColumnMap.hole_depth col) in
  let rec := convert_row col fields in
  (eqb raw_hole (lit "0.0") = true ->
   WitsRecord.hole_depth rec = WitsRecord.bit_depth rec)
  /\ (eqb raw_hole (lit "0.0") = false ->
      WitsRecord.hole_depth rec = mul raw_hole M_TO_FT)
  /\ (ColumnMap.hole_depth col < 0 ->
      WitsRecord.hole_depth rec = WitsRecord.bit_depth rec).
Proof.
  intros raw_hole rec. rewrite lit_0_0.
  assert (Hh : WitsRecord.hole_depth rec
               = mul (if truthy raw_hole then raw_hole
                      else safe_float fields (ColumnMap.bit_depth col))
                     M_TO_FT) by reflexivity.
  assert (Hb : WitsRecord.bit_depth rec
               = mul (safe_float fields (ColumnMap.bit_depth col)) M_TO_FT)
    by reflexivity.
  rewrite Hh, Hb. unfold truthy, neqb. change zero with f_0_0.
  split; [by intros -> | ]. split; [by intros -> | ].
  intros Hneg. subst raw_hole. unfold safe_float at 1 2.
  replace (ColumnMap.hole_depth col <? 0) with true
    by (symmetry; apply Z.ltb_lt, Hneg).
  reflexivity.
Qed.

Lemma hole_depth_fallback_witness :
  let col := map_columns ["Bit Depth m"; "Total Depth m"] in
  let rec := convert_row col ["500.0"; "0"] in
  WitsRecord.hole_depth rec = WitsRecord.bit_depth rec
  /\ format_2f (WitsRecord.hole_depth rec) = "1640.42".
Proof.
  intros col rec. split; [ | vm_compute; reflexivity].
  apply (proj1 (hole_depth_fallback col ["500.0"; "0"])).
  vm_compute. reflexivity.
Defined.

(** * Further properties of the column mapping *)

Section ColumnIndices.
Import ColumnMap Rules.

Lemma last_column_from_range (f : field) (header : list string) :
  forall i j : Z,
    last_column_from i f header = Some j ->
    i <= j < i + Z.of_nat (length header).
Proof.
  intros i j H.
  destruct (last_column_from_Some _ _ _ _ H) as (n & col & -> & Hn & _).
  apply lookup_lt_Some in Hn. lia.
Qed.

Lemma get_map_columns (f : field) (header : list string) :
  get f (map_columns header)
  = match last_column f header with Some j => j | None => -1 end.
Proof.
  unfold map_columns, last_column. rewrite get_map_columns_from.
  destruct (last_column_from 0 f header); [done | by destruct f].
Qed.

Lemma startswith_app (s p : string) :
  startswith s p = true -> exists r : string, s = (p ++ r)%string.
Proof.
  unfold startswith. revert s.
  induction p as [ | c p IH]; intros s.
  - intros _. by exists s.
  - destruct s as [ | d s]; simpl; [done | ].
    destruct (ascii_dec c d) as [<- | ]; [ | done].
    intros [r ->]%IH. by exists r.
Qed.

End ColumnIndices.

(** X2.  Every index of the column map is -1 or a valid position of the
    header, and then the column at that position stands for the
    attribute: the map never points outside the header or at a column of
    another attribute. *)
Theorem map_columns_indices_valid
  (header : list string) (f : ColumnMap.field) :
  ColumnMap.get f (map_columns header) = -1
  \/ exists col : string,
       0 <= ColumnMap.get f (map_columns header)
         < Z.of_nat (length header)
       /\ header !! Z.to_nat (ColumnMap.get f (map_columns header))
          = Some col
       /\ Rules.column_field col = Some f.
Proof.
  rewrite get_map_columns.
  destruct (Rules.last_column f header) as [j | ] eqn:E; [right | by left].
  apply last_column_spec in E as (n & col & -> & Hn & Hc & _).
  exists col. rewrite Nat2Z.id.
  split; [ | done]. apply lookup_lt_Some in Hn. lia.
Qed.

Ltac match_shape H :=
  repeat match type of H with
         | (_ || _) = true => apply orb_true_iff in H as [H | H]
         | String.eqb _ _ = true => apply String.eqb_eq in H; subst
         | startswith _ _ = true =>
             apply startswith_app in H as [? ->]
         end.

Lemma rules_exclusive
  (cl : string) (i j : nat)
  (pi pj : string -> bool) (fi fj : ColumnMap.field) :
  Rules.rules !! i = Some (pi, fi) ->
  Rules.rules !! j = Some (pj, fj) ->
  i <> j -> pi cl = true -> pj cl = false.
Proof.
  intros Hi Hj Hne Hpi.
  do 19 (destruct i as [ | i];
         [injection Hi as <- <-; cbv beta in Hpi; match_shape Hpi;
          (do 19 (destruct j as [ | j];
                  [first [by destruct Hne
                         | injection Hj as <- <-; vm_compute; reflexivity]
                  | ]); discriminate Hj)
         | ]).
  discriminate Hi.
Qed.

(** The first matching rule is at some position, and no earlier rule
    matches. *)
Lemma first_match_Some (rs : list ((string -> bool) * ColumnMap.field))
  (cl : string) (f : ColumnMap.field) :
  Rules.first_match rs cl = Some f ->
  exists (k : nat) (p : string -> bool),
    rs !! k = Some (p, f) /\ p cl = true.
Proof.
  induction rs as [ | [q g] rs IH]; simpl; [done | ].
  destruct (q cl) eqn:Hq.
  - intros [= ->]. by exists 0%nat, q.
  - intros (k & p & Hk & Hp)%IH. by exists (S k), p.
Qed.

Lemma first_match_None (rs : list ((string -> bool) * ColumnMap.field))
  (cl : string) :
  Rules.first_match rs cl = None ->
  forall (k : nat) (p : string -> bool) (f : ColumnMap.field),
    rs !! k = Some (p, f) -> p cl = false.
Proof.
  induction rs as [ | [q g] rs IH]; simpl; [done | ].
  destruct (q cl) eqn:Hq; [done | ].
  intros H [ | k] p f; simpl; [by intros [= <- _] | by apply IH].
Qed.

(** X3.  The patterns of [map_columns] exclude one another: a column
    text that matches one branch of the chain matches no other.  So the
    order of the branches never decides the result: whichever pattern a
    header column matches, the column sets the attribute of that pattern. *)
Theorem column_patterns_exclusive :
  (forall (cl : string) (i j : nat)
          (pi pj : string -> bool) (fi fj : ColumnMap.field),
     Rules.rules !! i = Some (pi, fi) ->
     Rules.rules !! j = Some (pj, fj) ->
     i <> j -> pi cl = true -> pj cl = false)
  /\ (forall (m : ColumnMap.t) (i : Z) (col : string)
             (k : nat) (p : string -> bool) (f : ColumnMap.field),
        Rules.rules !! k = Some (p, f) ->
        p (lower (strip col)) = true ->
        map_column m i col = ColumnMap.set f i m).
Proof.
  split; [exact rules_exclusive | ].
  intros m i col k p f Hk Hp. rewrite map_column_first_match.
  unfold Rules.column_field.
  destruct (Rules.first_match Rules.rules (lower (strip col))) as [g | ] eqn:E.
  - apply first_match_Some in E as (k' & p' & Hk' & Hp').
    destruct (decide (k' = k)) as [-> | Hne]; [congruence | ].
    rewrite (rules_exclusive _ _ _ _ _ _ _ Hk' Hk Hne Hp') in Hp.
    discriminate.
  - rewrite (first_match_None _ _ E _ _ _ Hk) in Hp. discriminate.
Qed.

Lemma column_patterns_exclusive_witness :
  startswith "total hookload kkgf" "total hookload" = true
  /\ startswith "total hookload kkgf" "total depth"
     || startswith "total hookload kkgf" "hole depth" = false.
Proof.
  split; [vm_compute; reflexivity | ].
  apply (proj1 column_patterns_exclusive "total hookload kkgf" 8%nat 2%nat
           (fun cl => startswith cl "total hookload")
           (fun cl => startswith cl "total depth"
                      || startswith cl "hole depth")
           ColumnMap.F_hook_load ColumnMap.F_hole_depth);
    [reflexivity | reflexivity | lia | vm_compute; reflexivity].
Defined.

(** * Further properties of the encoder and the conversions *)

Section NonFinite.

Lemma not_two_decimal_letter (c : ascii) (rest : string) :
  is_digit c = false -> c <> "-"%char -> ~ two_decimal (String c rest).
Proof.
  intros Hc Hm (neg & whole & d1 & d2 & Hv & Hne & Hd & _).
  destruct neg; unfold sign_text in Hv; simpl in Hv.
  - injection Hv as -> _. done.
  - destruct whole as [ | w whole]; [done | ].
    simpl in Hv, Hd. injection Hv as <- _.
    rewrite Hc in Hd. done.
Qed.

Lemma not_two_decimal_minus_letter (c : ascii) (rest : string) :
  is_digit c = false -> ~ two_decimal (String "-" (String c rest)).
Proof.
  intros Hc (neg & whole & d1 & d2 & Hv & Hne & Hd & _).
  destruct whole as [ | w whole]; [done | ].
  destruct neg; unfold sign_text in Hv; simpl in Hv, Hd.
  - injection Hv as <- _. rewrite Hc in Hd. done.
  - injection Hv as <- _. done.
Qed.

End NonFinite.

(** X4.  A value prints as a two-decimal number exactly when it is
    finite; an infinity prints as "inf" or "-inf" and NaN as "nan", so a
    record with such a field gets a data line that is no decimal number. *)
Theorem format_2f_decimal_iff_finite (x : float) :
  (two_decimal (format_2f x) <-> is_finite x = true)
  /\ (is_finite x = false ->
      format_2f x = "inf" \/ format_2f x = "-inf" \/ format_2f x = "nan").
Proof.
  split.
  - split; [ | apply format_2f_two_decimal].
    destruct x as [s | [] | | s m e]; try done; intros H; exfalso; revert H.
    + by apply not_two_decimal_minus_letter.
    + by apply not_two_decimal_letter.
    + by apply not_two_decimal_letter.
  - destruct x as [s | [] | | s m e]; try done; intros _; auto.
Qed.

Lemma frame_text_ascii (r : WitsRecord.t) :
  is_ascii (terminated (frame_lines r)) = true.
Proof.
  apply terminated_ascii. unfold frame_lines.
  apply Forall_app_2; [by constructor | ].
  apply Forall_app_2; [ | by constructor].
  apply Forall_map, Forall_forall. intros [code value] Hin. simpl.
  rewrite is_ascii_app, format_2f_ascii, andb_true_r.
  unfold WitsRecord.items in Hin.
  repeat (apply elem_of_cons in Hin as [[= -> _] | Hin]; [reflexivity | ]).
  by apply elem_of_nil in Hin.
Qed.

(** X5.  The encoder never raises, whatever the 18 values are (also
    infinities and NaN): the frame text is pure ASCII and is "&&", the 18
    lines code + printed value, "!!", each ended by CRLF. *)
Theorem to_wits_frame_never_fails (r : WitsRecord.t) :
  exists text : string,
    to_wits_frame r = Some (list_byte_of_string text)
    /\ is_ascii text = true
    /\ text
       = ("&&" ++ CRLF
          ++ terminated
               (map (fun '(code, value) => (code ++ format_2f value)%string)
                    (WitsRecord.items r))
          ++ "!!" ++ CRLF)%string.
Proof.
  exists (terminated (frame_lines r)).
  split; [apply to_wits_frame_text | ].
  split.
  - apply frame_text_ascii.
  - unfold frame_lines. rewrite !terminated_app. reflexivity.
Qed.

(** X6.  The temperature conversion yields NaN only for NaN, keeps an
    infinity as it is, and treats -0.0 as the 0.0 sentinel. *)
Theorem celsius_to_fahrenheit_special_values :
  (forall c : float, is_nan (celsius_to_fahrenheit c) = is_nan c)
  /\ (forall s : bool,
        celsius_to_fahrenheit (S754_infinity s) = S754_infinity s)
  /\ celsius_to_fahrenheit (S754_zero true) = S754_zero false.
Proof.
  split; [ | split; [intros []; reflexivity | reflexivity]].
  intros c. destruct (is_nan c) eqn:E.
  - by destruct c.
  - by apply celsius_to_fahrenheit_not_nan.
Qed.

(** * Further properties of the ingestion loop *)

Section IngestionMore.
Variable col : ColumnMap.t.

Lemma load_rows_skipped (rows : list (list string)) :
  forall st : load_state,
    skipped (fold_left (load_row col) rows st)
    = (skipped st
       + length (filter (fun r => blank_row r = false
                                  /\ gap_row col r = true) rows))%nat.
Proof.
  induction rows as [ | fields rows IH]; intros st; simpl; [lia | ].
  rewrite IH, filter_cons.
  destruct (load_row_cases col st fields)
    as [[Hb ->] | [(Hb & Hg & ->) | (Hb & Hg & ->)]]; simpl.
  - rewrite decide_False by (rewrite Hb; intros [? _]; done). lia.
  - rewrite decide_True by done. simpl. lia.
  - rewrite decide_False by (rewrite Hg; intros [_ ?]; done). lia.
Qed.

Lemma gap_row_without_key_columns (fields : list string) :
  ColumnMap.wob col < 0 -> ColumnMap.rpm col < 0 ->
  ColumnMap.rop col < 0 -> ColumnMap.spp col < 0 ->
  ColumnMap.bit_depth col < 0 ->
  gap_row col fields = true.
Proof.
  intros H1 H2 H3 H4 H5. unfold gap_row, safe_float.
  rewrite (proj2 (Z.ltb_lt _ _) H1), (proj2 (Z.ltb_lt _ _) H2),
    (proj2 (Z.ltb_lt _ _) H3), (proj2 (Z.ltb_lt _ _) H4),
    (proj2 (Z.ltb_lt _ _) H5).
  reflexivity.
Qed.

End IngestionMore.

(** X7.  Ingestion is row by row: loading rows [r1 ++ r2] under one
    header gives the records of [r1] followed by those of [r2], and the
    skipped counts add up. *)
Theorem load_rows_app
  (header : list string) (r1 r2 : list (list string)) :
  let col := map_columns header in
  load_csv (header :: r1 ++ r2)
  = Some (records (load_rows col r1) ++ records (load_rows col r2))%list
  /\ load_csv (header :: r1) = Some (records (load_rows col r1))
  /\ load_csv (header :: r2) = Some (records (load_rows col r2))
  /\ skipped (load_rows col (r1 ++ r2))
     = (skipped (load_rows col r1) + skipped (load_rows col r2))%nat.
Proof.
  intros col. unfold load_csv, load_rows. fold col.
  rewrite !load_rows_records, !load_rows_skipped. simpl.
  rewrite !filter_app, map_app, length_app. done.
Qed.

(** X8.  A header without any column for weight on bit, rotary speed,
    rate of penetration, standpipe pressure and bit depth yields no
    record at all: every row that is not blank counts as skipped. *)
Theorem load_csv_without_key_columns
  (header : list string) (rows : list (list string)) :
  (forall (col : string) (f : ColumnMap.field),
     col ∈ header ->
     f ∈ [ColumnMap.F_wob; ColumnMap.F_rpm; ColumnMap.F_rop;
          ColumnMap.F_spp; ColumnMap.F_bit_depth] ->
     Rules.column_field col <> Some f) ->
  load_csv (header :: rows) = Some []
  /\ (skipped (load_rows (map_columns header) rows) + blank_count rows
      = length rows)%nat.
Proof.
  intros Hnone.
  assert (Hget : forall f,
    f ∈ [ColumnMap.F_wob; ColumnMap.F_rpm; ColumnMap.F_rop;
         ColumnMap.F_spp; ColumnMap.F_bit_depth] ->
    ColumnMap.get f (map_columns header) < 0).
  { intros f Hf. rewrite get_map_columns. unfold Rules.last_column.
    rewrite (proj2 (last_column_from_None f header 0)); [lia | ].
    apply Forall_forall. intros c Hc. by apply Hnone. }
  assert (Hgap : forall fields, gap_row (map_columns header) fields = true).
  { intros fields. apply gap_row_without_key_columns.
    - apply (Hget ColumnMap.F_wob). repeat constructor.
    - apply (Hget ColumnMap.F_rpm). repeat constructor.
    - apply (Hget ColumnMap.F_rop). repeat constructor.
    - apply (Hget ColumnMap.F_spp). repeat constructor.
    - apply (Hget ColumnMap.F_bit_depth). repeat constructor. }
  assert (Hrec : records (load_rows (map_columns header) rows) = []).
  { unfold load_rows. rewrite load_rows_records. simpl.
    induction rows as [ | r rows IH]; [done | ].
    rewrite filter_cons, decide_False; [exact IH | ].
    unfold kept_row. rewrite Hgap, andb_false_r. done. }
  split; [unfold load_csv; by rewrite Hrec | ].
  pose proof (load_rows_count (map_columns header) rows
                {| records := []; skipped := 0 |}) as H.
  simpl in H. fold (load_rows (map_columns header) rows) in H.
  rewrite Hrec in H. simpl in H. lia.
Qed.

Lemma load_csv_without_key_columns_witness :
  load_csv [["Time"; "Depth"; "Gas (avg) %"];
            ["12:00"; "1000.0"; "3.5"]; []; ["12:01"; "1001.0"; "3.6"]]
  = Some [].
Proof.
  apply (load_csv_without_key_columns ["Time"; "Depth"; "Gas (avg) %"]).
  intros col f Hcol Hf.
  repeat (apply elem_of_cons in Hcol as [-> | Hcol];
          [repeat (apply elem_of_cons in Hf as [-> | Hf];
                   [vm_compute; discriminate | ]);
           by apply elem_of_nil in Hf | ]).
  by apply elem_of_nil in Hcol.
Defined.

(** * White space around a cell *)

Section Strip.

Lemma append_nil_r (s : string) : (s ++ EmptyString)%string = s.
Proof. induction s as [ | c s IH]; simpl; [done | by rewrite IH]. Qed.

Lemma rev_onto_app (s acc : string) :
  rev_onto s acc = (reverse s ++ acc)%string.
Proof.
  unfold reverse. revert acc.
  induction s as [ | c s IH]; intros acc; simpl; [done | ].
  rewrite IH, (IH (String c EmptyString)), append_assoc. done.
Qed.

Lemma reverse_cons (c : ascii) (s : string) :
  reverse (String c s) = (reverse s ++ String c EmptyString)%string.
Proof. unfold reverse at 1. simpl. apply rev_onto_app. Qed.

Lemma reverse_app (a b : string) :
  reverse (a ++ b) = (reverse b ++ reverse a)%string.
Proof.
  induction a as [ | c a IH]; simpl.
  - by rewrite append_nil_r.
  - by rewrite !reverse_cons, IH, append_assoc.
Qed.

Lemma reverse_involutive (s : string) : reverse (reverse s) = s.
Proof.
  induction s as [ | c s IH]; [done | ].
  by rewrite reverse_cons, reverse_app, IH.
Qed.

Lemma lstrip_all_space (l s : string) :
  all_space l = true -> lstrip (l ++ s) = lstrip s.
Proof.
  induction l as [ | c l IH]; simpl; [done | ].
  intros [-> Hl]%andb_true_iff. by apply IH.
Qed.

Lemma lstrip_idemp (s : string) : lstrip (lstrip s) = lstrip s.
Proof.
  induction s as [ | c s IH]; simpl; [done | ].
  destruct (is_space c) eqn:E; [exact IH | ]. simpl. by rewrite E.
Qed.

(** A stripped text is empty or starts with a visible character. *)
Lemma lstrip_head (s : string) :
  lstrip s = EmptyString
  \/ exists c t, lstrip s = String c t /\ is_space c = false.
Proof.
  induction s as [ | c s IH]; simpl; [by left | ].
  destruct (is_space c) eqn:E; [exact IH | right; eauto].
Qed.

Lemma all_space_reverse (s : string) :
  all_space s = true -> all_space (reverse s) = true.
Proof.
  induction s as [ | c s IH]; [done | ]. simpl.
  intros [Hc Hs]%andb_true_iff. rewrite reverse_cons.
  generalize (IH Hs). generalize (reverse s). clear -Hc.
  intros t. induction t as [ | d t IH]; simpl.
  - by rewrite Hc.
  - intros [-> Ht]%andb_true_iff. by apply IH.
Qed.

Lemma rstrip_all_space (s r : string) :
  all_space r = true -> rstrip (s ++ r) = rstrip s.
Proof.
  intros Hr. unfold rstrip.
  by rewrite reverse_app, lstrip_all_space by by apply all_space_reverse.
Qed.

Lemma lstrip_snoc (u : string) (c : ascii) :
  is_space c = false ->
  exists v, lstrip (u ++ String c EmptyString)
            = (v ++ String c EmptyString)%string.
Proof.
  intros Hc. induction u as [ | d u IH]; simpl.
  - rewrite Hc. by exists EmptyString.
  - destruct (is_space d); [exact IH | ].
    by exists (String d u).
Qed.

(** Stripping on the right keeps a visible first character. *)
Lemma rstrip_head (c : ascii) (t : string) :
  is_space c = false -> exists t', rstrip (String c t) = String c t'.
Proof.
  intros Hc. unfold rstrip. rewrite reverse_cons.
  destruct (lstrip_snoc (reverse t) c Hc) as [v ->].
  rewrite reverse_app. simpl. eauto.
Qed.

Lemma rstrip_idemp (s : string) : rstrip (rstrip s) = rstrip s.
Proof. unfold rstrip. by rewrite reverse_involutive, lstrip_idemp. Qed.

Lemma strip_idemp (s : string) : strip (strip s) = strip s.
Proof.
  unfold strip.
  destruct (lstrip_head s) as [-> | (c & t & -> & Hc)]; [done | ].
  destruct (rstrip_head c t Hc) as [t' Ht'].
  rewrite Ht'. simpl. rewrite Hc, <- Ht'. apply rstrip_idemp.
Qed.

Lemma strip_padded (l r s : string) :
  all_space l = true -> all_space r = true ->
  strip (padded l r s) = strip s.
Proof.
  intros Hl Hr. unfold strip, padded. rewrite lstrip_all_space by done.
  induction s as [ | c s IH]; simpl.
  - clear -Hr. induction r as [ | d r IH]; simpl; [done | ].
    apply andb_true_iff in Hr as [-> Hr]. by apply IH.
  - destruct (is_space c) eqn:E; [exact IH | ].
    change (String c (s ++ r)) with (String c s ++ r)%string.
    by apply rstrip_all_space.
Qed.

End Strip.

(** X9.  White space around a cell never matters: padding every field of
    a row, or every cell of the header, with white space on both sides
    changes neither the extracted values, nor whether the row is blank,
    skipped or emitted, nor the column map. *)
Theorem padding_is_ignored (l r : string) :
  all_space l = true -> all_space r = true ->
  (forall (fields : list string) (idx : Z),
     safe_float (map (padded l r) fields) idx = safe_float fields idx)
  /\ (forall (col : ColumnMap.t) (st : load_state) (fields : list string),
        load_row col st (map (padded l r) fields) = load_row col st fields)
  /\ (forall header : list string,
        map_columns (map (padded l r) header) = map_columns header).
Proof.
  intros Hl Hr.
  assert (Hsf : forall fields idx,
    safe_float (map (padded l r) fields) idx = safe_float fields idx).
  { intros fields idx. unfold safe_float.
    rewrite length_map, list_lookup_fmap.
    destruct (fields !! Z.to_nat idx) as [field | ]; simpl; [ | done].
    by rewrite strip_padded. }
  split; [exact Hsf | split].
  - intros col st fields. unfold load_row, gap_row, convert_row.
    rewrite !Hsf.
    replace (blank_row (map (padded l r) fields)) with (blank_row fields);
      [done | ].
    unfold blank_row. f_equal.
    + destruct fields; done.
    + induction fields as [ | f fields IH]; simpl; [done | ].
      by rewrite strip_padded, IH.
  - intros header. unfold map_columns.
    generalize ColumnMap.default. generalize 0.
    induction header as [ | c header IH]; intros i m; simpl; [done | ].
    rewrite IH. f_equal. unfold map_column. by rewrite strip_padded.
Qed.

Lemma padding_is_ignored_witness :
  safe_float ["  12.5 "; "  x "] 0 = safe_float ["12.5"; "x"] 0.
Proof.
  apply (proj1 (padding_is_ignored "  " " " eq_refl eq_refl)
           ["12.5"; "x"] 0).
Defined.

(** * Further properties of the broadcast step and the registry *)

Section BroadcastMore.
Import WitsServer.
Variable fl : writer -> bool.



End BroadcastMore.



(** X11.  The registry events of [handle_client] and of the signal
    handler: discarding a writer that is not registered (for instance one
    that a broadcast closed and removed, or whose write failed in a
    broadcast nobody disturbed) changes nothing; a connection
    that comes and goes leaves every other client as it was; and no event
    touches the records, the configuration or the sent counter, nor sets
    [running] again once it is cleared. *)
Theorem registry_events (self : WitsServer.t) :
  (forall w, w ∉ WitsServer.clients self ->
             WitsServer.handle (WitsServer.Disconnect w) self = self)
  /\ (forall (e : WitsServer.env) (data : WitsServer.bytes)
             (self' : WitsServer.t) (tr : WitsServer.broadcast_trace) w,
        WitsServer.broadcast e self data = WitsServer.Completed self' tr ->
        w ∈ WitsServer.closed tr
        \/ (quiet e = true /\ WitsServer.fails e w = true) ->
        WitsServer.handle (WitsServer.Disconnect w) self' = self')
  /\ (forall w w',
        w' ∈ WitsServer.clients
               (WitsServer.handle (WitsServer.Disconnect w)
                  (WitsServer.handle (WitsServer.Connect w) self))
        <-> w' ∈ WitsServer.clients self /\ w' <> w)
  /\ (forall ev,
        same_setup (WitsServer.handle ev self) self
        /\ WitsServer.total_sent (WitsServer.handle ev self)
           = WitsServer.total_sent self
        /\ (WitsServer.running self = false ->
            WitsServer.running (WitsServer.handle ev self) = false)).
Proof.
  assert (Hdis : forall s w, w ∉ WitsServer.clients s ->
                 WitsServer.handle (WitsServer.Disconnect w) s = s).
  { intros s w Hw. unfold WitsServer.handle, WitsServer.set_clients.
    replace (WitsServer.clients s ∖ {[w]}) with (WitsServer.clients s);
      [by destruct s | ].
    apply set_eq. intros x. rewrite elem_of_difference, elem_of_singleton.
    split; [ | tauto]. intros Hx. split; [done | congruence]. }
  split; [apply Hdis | ].
  split.
  { intros e data self' tr w Hb Hw. apply Hdis.
    destruct Hw as [Hw | [Hq Hf]].
    - pose proof (broadcast_keeps_all e self data) as Hk.
      rewrite Hb in Hk. destruct Hk as [_ Hk]. by apply Hk.
    - destruct (broadcast_quiet_clients e self data Hq)
        as (s1 & tr1 & Hb1 & Hcl & _).
      rewrite Hb in Hb1. injection Hb1 as <- <-.
      rewrite Hcl. intros [_ H]. congruence. }
  split.
  { intros w w'. simpl.
    rewrite elem_of_difference, elem_of_union, elem_of_singleton. tauto. }
  intros ev. by destruct ev.
Qed.

(** * Further properties of the feed loop *)

Section FeedInvariant.
Import WitsServer.

Ltac split_all :=
  repeat match goal with |- _ /\ _ => split end; try done.

Lemma send_counter (e : env) (self : t) (p i : nat) (rec : WitsRecord.t) :
  counter_at self (ReconnectPoll p i rec) ->
  forall self' at_' out,
    send e self p i rec = (self', at_', out) ->
    same_setup self' self /\ counter_at self' at_'
    /\ (running self = false -> running self' = false)
    /\ accounted self self' at_' out
    /\ forall s, out = Some s -> sent_index s = i.
Proof.
  intros (Hrec & Hsent & Hp & Honce) self' at_' out.
  pose proof (lookup_lt_Some _ _ _ Hrec) as Hlt.
  destruct (send_effect e self p i rec)
    as (s1 & tr & Hsame & Hrun & [[-> Htot] | [-> Htot]]);
    intros [= <- <- <-]; (split; [exact Hsame | ]);
    destruct Hsame as (Hr & _ & _ & Hl).
  - split; [ | split; [done | split; [ | by intros s [= <-]]]].
    + simpl. rewrite Hr, Hl, Htot. split_all; lia.
    + simpl. split; [done | right]. split; [by exists p | done].
  - split; [ | split; [done | split; [ | by intros s [= <-]]]].
    + simpl. rewrite Hr, Hl, Htot. intros El.
      rewrite (Honce El) in Hsent. lia.
    + simpl. split; [done | by left].
Qed.

(** What an iteration needs, and what it gives. *)
Lemma iteration_counter (e : env) (self : t)
  (p i : nat) (rec : WitsRecord.t) :
  counter_at self (ReconnectPoll p i rec) ->
  forall self' at_' out,
    (iteration e self p i rec = (self', at_', out)
     \/ reconnect_wait e self p i rec = (self', at_', out)) ->
    same_setup self' self /\ counter_at self' at_'
    /\ (running self = false -> running self' = false)
    /\ accounted self self' at_' out
    /\ forall s, out = Some s -> sent_index s = i.
Proof.
  intros Hc self' at_' out.
  pose proof (send_counter e self p i rec Hc self' at_' out) as Hsent_ok.
  assert (Hwait_ok :
    reconnect_wait e self p i rec = (self', at_', out) ->
    same_setup self' self /\ counter_at self' at_'
    /\ (running self = false -> running self' = false)
    /\ accounted self self' at_' out
    /\ forall s, out = Some s -> sent_index s = i).
  { unfold reconnect_wait.
    destruct (no_clients self && running self); [ | exact Hsent_ok].
    intros [= <- <- <-]. split_all. }
  intros [H | H]; [ | by apply Hwait_ok].
  revert H. unfold iteration.
  destruct (running self) eqn:Er; simpl.
  - destruct (no_clients self); [exact Hwait_ok | exact Hsent_ok].
  - intros [= <- <- <-]. split_all.
    destruct Hc as (Hrec & Hsent & Hp & Honce).
    pose proof (lookup_lt_Some _ _ _ Hrec) as Hlt.
    simpl. intros Hl. specialize (Honce Hl). subst p. lia.
Qed.

Lemma final_idle_counter (self : t) :
  loop_replay self = false ->
  total_sent self = length (records self) ->
  counter_at self (final_idle self).1.2
  /\ (final_idle self).1.1 = self /\ (final_idle self).2 = None.
Proof.
  intros Hl Hn. unfold final_idle.
  destruct (running self); simpl; repeat split; try done. lia.
Qed.

(** The head of the outer loop, [p] passes done. *)
Lemma next_pass_counter (e : env) (self : t) (p : nat) :
  total_sent self = (p * length (records self))%nat ->
  (loop_replay self = false -> p = 0%nat) ->
  forall self' at_' out,
    next_pass e self p = (self', at_', out) ->
    same_setup self' self /\ counter_at self' at_'
    /\ (running self = false -> running self' = false)
    /\ accounted self self' at_' out
    /\ forall s, out = Some s -> sent_index s = 0%nat.
Proof.
  intros Hsent Honce self' at_' out. unfold next_pass.
  destruct (running self) eqn:Er; simpl.
  - destruct (records self) as [ | rec rest] eqn:Hrs.
    + destruct (loop_replay self) eqn:El; simpl.
      * intros [= <- <- <-]. split_all.
      * destruct (final_idle_counter self El) as (H1 & H2 & H3).
        { rewrite Hsent, Hrs. simpl. lia. }
        destruct (final_idle self) as [[s a] o]. simpl in *. subst s o.
        intros [= <- <- <-]. split_all.
    + intros H.
      destruct (iteration_counter e self (p + 1) 0 rec) with
        (self' := self') (at_' := at_') (out := out)
        as (H1 & H2 & H3 & H4 & H5); [ | by left | ].
      { simpl. rewrite Hrs. split; [done | ].
        split; [simpl in *; nia | ]. split; [lia | ].
        intros Hl. specialize (Honce Hl). lia. }
      split_all.
  - intros [= <- <- <-]. split_all.
    simpl. intros Hl. rewrite Hsent, (Honce Hl). lia.
Qed.

(** One resumption keeps the invariant of the counter; when it
    broadcasts, it broadcasts the record whose index is the counter
    modulo the number of records. *)
Lemma resume_counter (e : env) (self : t) (at_ : point) :
  counter_at self at_ ->
  forall self' at_' out,
    resume e self at_ = (self', at_', out) ->
    same_setup self' self /\ counter_at self' at_'
    /\ (running self = false -> running self' = false)
    /\ accounted self self' at_' out
    /\ forall s, out = Some s ->
         (total_sent self `mod` length (records self))%nat = sent_index s.
Proof.
  intros Hc self' at_' out.
  assert (Hstart :
    counter_at self Created ->
    (if no_clients self && running self then (self, InitialPoll, None)
     else next_pass e self 0) = (self', at_', out) ->
    same_setup self' self /\ counter_at self' at_'
    /\ (running self = false -> running self' = false)
    /\ accounted self self' at_' out
    /\ forall s, out = Some s ->
         (total_sent self `mod` length (records self))%nat = sent_index s).
  { intros Hc0. simpl in Hc0.
    destruct (no_clients self && running self).
    - intros [= <- <- <-]. split_all.
    - intros H.
      destruct (next_pass_counter e self 0) with
        (self' := self') (at_' := at_') (out := out)
        as (H1 & H2 & H3 & H4 & H5); [by rewrite Hc0 | done | done | ].
      split_all. intros s Hs. rewrite (H5 s Hs), Hc0.
      apply Nat.Div0.mod_0_l. }
  destruct at_ as [ | | p i rec | p i | | | | ]; simpl.
  - (* Created *) by apply Hstart.
  - (* InitialPoll *) by apply Hstart.
  - (* ReconnectPoll *)
    intros H.
    destruct (iteration_counter e self p i rec Hc self' at_' out)
      as (H1 & H2 & H3 & H4 & H5); [by right | ].
    split_all. intros s Hs. rewrite (H5 s Hs).
    destruct Hc as (Hrec & Hsent & Hp & _).
    pose proof (lookup_lt_Some _ _ _ Hrec) as Hlt.
    symmetry. apply (Nat.mod_unique _ _ (p - 1)); [done | nia].
  - (* Pacing *)
    destruct Hc as (Hlt & Hsent & Hp & Honce). unfold for_next.
    destruct (records self !! (i + 1)%nat) as [rec | ] eqn:Hrec.
    + intros H.
      destruct (iteration_counter e self p (i + 1) rec) with
        (self' := self') (at_' := at_') (out := out)
        as (H1 & H2 & H3 & H4 & H5); [ | by left | ].
      { simpl. split_all. lia. }
      split_all. intros s Hs. rewrite (H5 s Hs).
      pose proof (lookup_lt_Some _ _ _ Hrec) as Hlt'.
      symmetry. apply (Nat.mod_unique _ _ (p - 1)); [done | nia].
    + apply lookup_ge_None in Hrec.
      assert (Hn : (i + 1)%nat = length (records self)) by lia.
      destruct (loop_replay self) eqn:El; simpl.
      * intros H.
        destruct (next_pass_counter e self p) with
          (self' := self') (at_' := at_') (out := out)
          as (H1 & H2 & H3 & H4 & H5); [nia | intros; congruence | done | ].
        split_all. intros s Hs. rewrite (H5 s Hs).
        replace (total_sent self) with (p * length (records self))%nat
          by nia.
        apply Nat.Div0.mod_mul.
      * destruct (final_idle_counter self El) as (H1 & H2 & H3).
        { rewrite (Honce eq_refl) in Hsent. lia. }
        destruct (final_idle self) as [[s a] o]. simpl in *. subst s o.
        intros [= <- <- <-]. split_all.
  - (* FinalIdle *)
    destruct Hc as (El & Hn).
    destruct (final_idle_counter self El Hn) as (H1 & H2 & H3).
    destruct (final_idle self) as [[s a] o]. simpl in *. subst s o.
    intros [= <- <- <-]. split_all.
  - intros [= <- <- <-]. split_all.
  - intros [= <- <- <-]. split_all.
  - intros [= <- <- <-]. split_all.
Qed.

Lemma same_setup_trans (a b c : t) :
  same_setup a b -> same_setup b c -> same_setup a c.
Proof.
  intros (H1 & H2 & H3 & H4) (H5 & H6 & H7 & H8).
  repeat split; congruence.
Qed.

Lemma counter_at_handle (ev : event) (self : t) (at_ : point) :
  counter_at self at_ -> counter_at (handle ev self) at_.
Proof. by destruct ev. Qed.

Lemma step_invariant (start : t) (c c' : config) :
  feed_invariant start c -> step c c' -> feed_invariant start c'.
Proof.
  intros [Hs Hc] Hstep.
  destruct Hstep as [ev self at_ _ | e self at_ self' at_' out H].
  - split; [ | by apply counter_at_handle].
    simpl in *. by destruct ev.
  - destruct (resume_counter e self at_ Hc _ _ _ H) as (H1 & H2 & _).
    split; [ | done]. simpl in *. by apply (same_setup_trans _ self).
Qed.

Lemma reachable_invariant (rs : list WitsRecord.t) (speed : float)
  (port : Z) (loop : bool) (start : t) (c : config) :
  init rs speed port loop = Some start ->
  reachable start c -> feed_invariant start c.
Proof.
  intros Hinit Hreach.
  assert (H0 : feed_invariant start (start, Created)).
  { revert Hinit. unfold init. destruct (eqb speed f_0_0); [done | ].
    intros [= <-]. split; simpl; [repeat split | reflexivity]. }
  unfold reachable in Hreach. clear Hinit.
  remember (start, Created) as c0 eqn:E. clear E.
  induction Hreach as [c | c1 c2 c3 Hstep _ IH]; [done | ].
  by apply IH, (step_invariant _ c1).
Qed.

End FeedInvariant.

Lemma init_fields (rs : list WitsRecord.t) (speed : float) (port : Z)
  (loop : bool) (start : WitsServer.t) :
  WitsServer.init rs speed port loop = Some start ->
  WitsServer.records start = rs /\ WitsServer.loop_replay start = loop
  /\ WitsServer.port start = port /\ WitsServer.clients start = ∅
  /\ WitsServer.running start = true /\ WitsServer.total_sent start = 0%nat.
Proof.
  unfold WitsServer.init. destruct (eqb speed f_0_0); [done | ].
  intros [= <-]. done.
Qed.

Section FeedUndisturbed.
Import WitsServer.

(** A send whose broadcast nobody disturbs counts and goes to the pacing
    sleep. *)
Lemma send_quiet (e : env) (self : t) (p i : nat) (rec : WitsRecord.t) :
  quiet e = true ->
  exists (self' : t) (tr : broadcast_trace),
    send e self p i rec = (self', Pacing p i, Some (Sent i rec tr))
    /\ total_sent self' = S (total_sent self)
    /\ (forall w, w ∈ clients self'
                  <-> w ∈ clients self /\ fails e w = false).
Proof.
  intros Hq.
  destruct (send_spec e self p i rec) as (frame & _ & ->).
  destruct (broadcast_quiet_clients e self frame Hq)
    as (s1 & tr & -> & Hcl & _ & Ht & _).
  eexists _, tr. split; [reflexivity | ].
  split; [simpl; lia | exact Hcl].
Qed.

(** A resumption either broadcasts nothing and leaves the server as it
    is, or it is a send. *)
Lemma resume_cases (e : env) (self : t) (at_ : point) :
  (exists at_', (resume e self at_ = (self, at_', None)
                 /\ at_' <> Raised)
                \/ at_ = Raised)
  \/ (exists p i rec, resume e self at_ = send e self p i rec).
Proof.
  assert (Hfi : exists at_', final_idle self = (self, at_', None)
                             /\ at_' <> Raised).
  { unfold final_idle. destruct (running self); eauto. }
  assert (Hrw : forall p i rec,
    (exists at_', reconnect_wait e self p i rec = (self, at_', None)
                  /\ at_' <> Raised)
    \/ reconnect_wait e self p i rec = send e self p i rec).
  { intros p i rec. unfold reconnect_wait.
    destruct (no_clients self && running self); [left | by right]. eauto. }
  assert (Hit : forall p i rec,
    (exists at_', iteration e self p i rec = (self, at_', None)
                  /\ at_' <> Raised)
    \/ (exists p' i' rec',
          iteration e self p i rec = send e self p' i' rec')).
  { intros p i rec. unfold iteration.
    destruct (running self); simpl; [ | left; eauto].
    destruct (no_clients self); [ | right; eauto].
    destruct (Hrw p i rec) as [H | H]; [by left | right; eauto]. }
  assert (Hnp : forall p,
    (exists at_', next_pass e self p = (self, at_', None)
                  /\ at_' <> Raised)
    \/ (exists p' i' rec',
          next_pass e self p = send e self p' i' rec')).
  { intros p. unfold next_pass.
    destruct (running self); simpl; [ | left; eauto].
    destruct (records self) as [ | rec rest]; [ | apply Hit].
    destruct (loop_replay self); simpl; left; eauto. }
  destruct at_ as [ | | p i rec | p i | | | | ]; simpl.
  - destruct (no_clients self && running self).
    + left. exists InitialPoll. by left.
    + destruct (Hnp 0%nat) as [(a & H & Ha) | H]; [left | by right].
      exists a. by left.
  - destruct (no_clients self && running self).
    + left. exists InitialPoll. by left.
    + destruct (Hnp 0%nat) as [(a & H & Ha) | H]; [left | by right].
      exists a. by left.
  - destruct (Hrw p i rec) as [(a & H & Ha) | H]; [left | right; eauto].
    exists a. by left.
  - unfold for_next. destruct (records self !! (i + 1)%nat) as [rec | ].
    + destruct (Hit p (i + 1)%nat rec) as [(a & H & Ha) | H];
        [left | by right].
      exists a. by left.
    + destruct (loop_replay self); simpl.
      * destruct (Hnp p) as [(a & H & Ha) | H]; [left | by right].
        exists a. by left.
      * destruct Hfi as (a & H & Ha). left. exists a. by left.
  - destruct Hfi as (a & H & Ha). left. exists a. by left.
  - left. exists Returned. by left.
  - left. exists Raised. by right.
  - left. exists Spinning. by left.
Qed.

(** A resumption nobody disturbs does not raise. *)
Lemma resume_quiet (e : env) (self self' : t) (at_ at_' : point)
  (out : option sent) :
  quiet e = true -> at_ <> Raised ->
  resume e self at_ = (self', at_', out) -> at_' <> Raised.
Proof.
  intros Hq Hat Hres.
  destruct (resume_cases e self at_)
    as [(a & [[H Ha] | H]) | (p & i & rec & H)].
  - rewrite H in Hres. by injection Hres as <- <- <-.
  - done.
  - rewrite H in Hres.
    destruct (send_quiet e self p i rec Hq) as (s1 & tr & Hs & _).
    rewrite Hs in Hres. by injection Hres as <- <- <-.
Qed.


End FeedUndisturbed.

(** X12.  Frames go out in record order.  In any run of a server built by
    [__init__], whenever the feed loop broadcasts, the record it sends is
    the one whose index is the sent counter modulo the number of records:
    no record is skipped or repeated within a pass, and a new pass starts
    again at the first record.  When the broadcast returns, the counter
    grows by one and the loop sleeps for the pacing interval; when the
    broadcast raises, the counter stays and the loop is over.  It does not
    raise when no client connects or leaves during the drains. *)
Theorem feed_loop_sends_in_order
  (rs : list WitsRecord.t) (speed : float) (port : Z) (loop : bool)
  (start self self' : WitsServer.t) (at_ at_' : WitsServer.point)
  (e : WitsServer.env) (s : WitsServer.sent) :
  WitsServer.init rs speed port loop = Some start ->
  WitsServer.reachable start (self, at_) ->
  WitsServer.resume e self at_ = (self', at_', Some s) ->
  rs !! (WitsServer.total_sent self `mod` length rs)%nat
  = Some (WitsServer.sent_record s)
  /\ WitsServer.sent_index s
     = (WitsServer.total_sent self `mod` length rs)%nat
  /\ ((at_' = WitsServer.Raised
       /\ WitsServer.total_sent self' = WitsServer.total_sent self)
      \/ ((exists p, at_' = WitsServer.Pacing p (WitsServer.sent_index s))
          /\ WitsServer.total_sent self' = S (WitsServer.total_sent self)))
  /\ (quiet e = true -> at_' <> WitsServer.Raised).
Proof.
  intros Hinit Hreach Hres.
  destruct (reachable_invariant _ _ _ _ _ _ Hinit Hreach) as [Hs Hc].
  destruct (init_fields _ _ _ _ _ Hinit) as (Hrs & _).
  destruct Hs as (Hr & _). simpl in Hr, Hc. rewrite Hrs in Hr.
  destruct (resume_counter e self at_ Hc _ _ _ Hres)
    as (_ & _ & _ & [H1 H2] & H3).
  specialize (H3 s eq_refl). rewrite Hr in H1, H3. rewrite H3.
  split; [done | ]. split; [done | ]. split; [done | ].
  intros Hq. apply (resume_quiet e self self' at_ at_' (Some s) Hq);
    [ | done].
  intros ->. simpl in Hres. discriminate Hres.
Qed.

Lemma feed_loop_sends_in_order_witness :
  let r0 := convert_row (map_columns ["Bit Depth m"]) ["1000.0"] in
  let r1 := convert_row (map_columns ["Bit Depth m"]) ["1001.0"] in
  let start :=
    WitsServer.mk [r0; r1] (div f_1_0 (lit "2.0")) 10001 true ∅ true 0 in
  let self := WitsServer.handle (WitsServer.Connect 4%nat) start in
  exists (self' : WitsServer.t) (at_' : WitsServer.point)
         (s : WitsServer.sent),
    WitsServer.resume (calm (fun _ => false)) self WitsServer.Created
    = (self', at_', Some s)
    /\ WitsServer.sent_record s = r0
    /\ at_' <> WitsServer.Raised.
Proof.
  intros r0 r1 start self.
  assert (Hinit : WitsServer.init [r0; r1] (lit "2.0") 10001 true
                  = Some start) by (vm_compute; reflexivity).
  assert (Hreach : WitsServer.reachable start (self, WitsServer.Created)).
  { eapply rtc_l; [ | apply rtc_refl].
    by apply (WitsServer.step_event (WitsServer.Connect 4%nat)). }
  destruct (WitsServer.resume (calm (fun _ => false)) self
              WitsServer.Created)
    as [[self' at_'] [s | ]] eqn:Hres;
    [ | vm_compute in Hres; discriminate Hres].
  exists self', at_', s. split; [reflexivity | ].
  destruct (feed_loop_sends_in_order _ _ _ _ _ _ _ _ _ _ _
              Hinit Hreach Hres) as (H1 & _ & _ & H4).
  split; [ | by apply H4].
  replace (WitsServer.total_sent self `mod` length [r0; r1])%nat
    with 0%nat in H1 by (vm_compute; reflexivity).
  by injection H1 as <-.
Defined.

(** X13.  Without loop replay every record is counted at most once: in
    any run the sent counter never exceeds the number of records. *)
Theorem replay_once_bounds_sent
  (rs : list WitsRecord.t) (speed : float) (port : Z)
  (start self : WitsServer.t) (at_ : WitsServer.point) :
  WitsServer.init rs speed port false = Some start ->
  WitsServer.reachable start (self, at_) ->
  (WitsServer.total_sent self <= length rs)%nat.
Proof.
  intros Hinit Hreach.
  destruct (reachable_invariant _ _ _ _ _ _ Hinit Hreach) as [Hs Hc].
  destruct (init_fields _ _ _ _ _ Hinit) as (Hrs & Hl & _).
  destruct Hs as (Hr & _ & _ & Hl'). simpl in Hr, Hl', Hc.
  rewrite Hrs in Hr. rewrite Hl in Hl'.
  destruct at_ as [ | | p i rec | p i | | | | ]; simpl in Hc;
    rewrite ?Hr in Hc.
  - lia.
  - lia.
  - destruct Hc as (Hrec & Hsent & _ & Honce).
    apply lookup_lt_Some in Hrec. rewrite (Honce Hl') in Hsent. lia.
  - destruct Hc as (Hlt & Hsent & _ & Honce).
    rewrite (Honce Hl') in Hsent. lia.
  - lia.
  - by apply Hc.
  - by apply Hc.
  - destruct Hc as [_ Hc]. congruence.
Qed.

Lemma replay_once_bounds_sent_witness :
  let r0 := convert_row (map_columns ["Bit Depth m"]) ["1000.0"] in
  let start := WitsServer.mk [r0] (div f_1_0 (lit "1.0")) 10001 false ∅
                 true 0 in
  let self := WitsServer.handle (WitsServer.Connect 4%nat) start in
  (WitsServer.total_sent
     (WitsServer.resume (calm (fun _ => true)) self WitsServer.Created).1.1
   <= 1)%nat.
Proof.
  intros r0 start self.
  assert (Hinit : WitsServer.init [r0] (lit "1.0") 10001 false
                  = Some start) by (vm_compute; reflexivity).
  destruct (WitsServer.resume (calm (fun _ => true)) self
              WitsServer.Created)
    as [[self' at_'] out] eqn:Hres.
  apply (replay_once_bounds_sent [r0] (lit "1.0") 10001 start self' at_'
           Hinit).
  eapply rtc_l;
    [by apply (WitsServer.step_event (WitsServer.Connect 4%nat)) | ].
  eapply rtc_l; [ | apply rtc_refl].
  by apply (WitsServer.step_feed (calm (fun _ => true)) _ _ _ _ out).
Defined.

(** X14.  In any run the records and the configuration stay those of
    [__init__], and the loop can spin without suspending only when there
    are no records and loop replay is on.  The encoder never makes the
    loop raise: a resumption raises only out of a broadcast, and not when
    no client connects or leaves during the drains of that broadcast. *)
Theorem feed_loop_raises_only_when_disturbed
  (rs : list WitsRecord.t) (speed : float) (port : Z) (loop : bool)
  (start self : WitsServer.t) (at_ : WitsServer.point) :
  WitsServer.init rs speed port loop = Some start ->
  WitsServer.reachable start (self, at_) ->
  (at_ = WitsServer.Spinning -> rs = [] /\ loop = true)
  /\ WitsServer.records self = rs
  /\ WitsServer.loop_replay self = loop
  /\ WitsServer.port self = port
  /\ WitsServer.interval self = WitsServer.interval start
  /\ forall (e : WitsServer.env) (self' : WitsServer.t)
            (out : option WitsServer.sent),
       at_ <> WitsServer.Raised ->
       WitsServer.resume e self at_ = (self', WitsServer.Raised, out) ->
       quiet e = false
       /\ exists (p i : nat) (rec : WitsRecord.t)
                 (frame : WitsServer.bytes)
                 (tr : WitsServer.broadcast_trace),
            to_wits_frame rec = Some frame
            /\ WitsServer.broadcast e self frame
               = WitsServer.SetChanged self' tr
            /\ out = Some (WitsServer.Sent i rec tr).
Proof.
  intros Hinit Hreach.
  destruct (reachable_invariant _ _ _ _ _ _ Hinit Hreach) as [Hs Hc].
  destruct (init_fields _ _ _ _ _ Hinit) as (Hrs & Hl & Hp & _).
  destruct Hs as (Hr & Hi & Hp' & Hl'). simpl in *.
  split.
  { intros ->. destruct Hc as [Hc1 Hc2]. split; congruence. }
  split; [congruence | ]. split; [congruence | ].
  split; [congruence | ]. split; [congruence | ].
  intros e self' out Hat Hres. split.
  { destruct (quiet e) eqn:Hq; [ | done].
    by destruct (resume_quiet e self self' at_ WitsServer.Raised out Hq
                   Hat Hres). }
  destruct (resume_cases e self at_)
    as [(a & [[H Ha] | H]) | (p & i & rec & H)].
  - rewrite H in Hres. injection Hres as _ E _. congruence.
  - done.
  - rewrite H in Hres.
    destruct (send_spec e self p i rec) as (frame & Hf & Hsend).
    rewrite Hsend in Hres. exists p, i, rec, frame.
    destruct (WitsServer.broadcast e self frame) as [s1 tr | s1 tr];
      [discriminate Hres | ].
    injection Hres as <- <-. by exists tr.
Qed.

Lemma feed_loop_raises_only_when_disturbed_witness :
  let start := WitsServer.mk [] (div f_1_0 (lit "1.0")) 10001 true ∅
                 true 0 in
  let self := WitsServer.handle (WitsServer.Connect 4%nat) start in
  WitsServer.records
    (WitsServer.resume (calm (fun _ => false)) self WitsServer.Created).1.1
  = [].
Proof.
  intros start self.
  assert (Hinit : WitsServer.init [] (lit "1.0") 10001 true
                  = Some start) by (vm_compute; reflexivity).
  destruct (WitsServer.resume (calm (fun _ => false)) self
              WitsServer.Created)
    as [[self' at_'] out] eqn:Hres.
  apply (feed_loop_raises_only_when_disturbed [] (lit "1.0") 10001 true
           start self' at_' Hinit).
  eapply rtc_l;
    [by apply (WitsServer.step_event (WitsServer.Connect 4%nat)) | ].
  eapply rtc_l; [ | apply rtc_refl].
  by apply (WitsServer.step_feed (calm (fun _ => false)) _ _ _ _ out).
Defined.







(** * The command line *)

Lemma load_csv_not_empty_rows (file_rows : list (list string))
  (rs : list WitsRecord.t) :
  load_csv file_rows = Some rs -> file_rows <> [].
Proof. by destruct file_rows. Qed.


